(** * fsmbuilder: the Builder and the FSM executor of [fsm/fsm.go]

    A shallow embedding of the Go package [fsm] (and of the modulo-three
    automaton assembled in [main.go]), followed by the properties of the
    builder's validation pipeline and of the execution engine.

    Layout of the model:
    - Go strings are byte strings ([string], one [ascii] per byte);
    - a Go [map[K]bool] / [map[K]V] is a [gmap]; reading a missing key of a
      [map[K]bool] yields [false] ([has]);
    - [range] over a map visits the keys in an order Go leaves unspecified:
      the order is an explicit argument ([RangeOrder]);
    - [range] over a string decodes UTF-8 ([runes]), [Symbol(char)] encodes
      the rune again ([string_of_rune]);
    - every method is first given as its effect on the [FSM] object that
      [b.fsm] (resp. the receiver [f]) points to; [Builder_call],
      [Builder_Build] and [FSM_ProcessInput] then add the pointers and the
      store, so that the sharing between a Builder and the automaton it
      returned is visible. *)

From Stdlib Require Import NArith Ascii String.
From stdpp Require Import base option list strings gmap fin_maps.

Local Open Scope string_scope.

(** ** Data model *)

(** [type State string] and [type Symbol string]. *)
Definition State : Type := string.
Definition Symbol : Type := string.

(** [type TransitionKey struct { State State; Symbol Symbol }] *)
Record TransitionKey : Type := mkKey { key_State : State; key_Symbol : Symbol }.

#[global] Instance TransitionKey_eq_dec : EqDecision TransitionKey.
Proof. solve_decision. Defined.

#[global] Instance TransitionKey_countable : Countable TransitionKey.
Proof.
  refine (inj_countable' (fun k => (key_State k, key_Symbol k))
                         (fun p => mkKey p.1 p.2) _).
  by intros [].
Defined.

(** [type FSM struct]: the five components of the automaton and the cursor. *)
Record FSM : Type := mkFSM {
  states : gmap State bool;
  alphabet : gmap Symbol bool;
  initialState : State;
  finalStates : gmap State bool;
  transitions : gmap TransitionKey State;
  currentState : State
}.

(** Field assignments [f.x = v]. *)
Definition set_states (v : gmap State bool) (f : FSM) : FSM :=
  mkFSM v (alphabet f) (initialState f) (finalStates f) (transitions f) (currentState f).
Definition set_alphabet (v : gmap Symbol bool) (f : FSM) : FSM :=
  mkFSM (states f) v (initialState f) (finalStates f) (transitions f) (currentState f).
Definition set_initialState (v : State) (f : FSM) : FSM :=
  mkFSM (states f) (alphabet f) v (finalStates f) (transitions f) (currentState f).
Definition set_finalStates (v : gmap State bool) (f : FSM) : FSM :=
  mkFSM (states f) (alphabet f) (initialState f) v (transitions f) (currentState f).
Definition set_transitions (v : gmap TransitionKey State) (f : FSM) : FSM :=
  mkFSM (states f) (alphabet f) (initialState f) (finalStates f) v (currentState f).
Definition set_currentState (v : State) (f : FSM) : FSM :=
  mkFSM (states f) (alphabet f) (initialState f) (finalStates f) (transitions f) v.

(** [m[k]] on a [map[K]bool]: the zero value [false] when [k] is absent. *)
Definition has `{Countable K} (m : gmap K bool) (k : K) : bool :=
  default false (m !! k).

(** ** Errors

    Every error of the package is made by [fmt.Errorf]; one constructor per
    call site, with the values that are formatted into the message. *)
Inductive error : Type :=
  | ErrStateNotInSet (state : State)
  | ErrNextStateNotInSet (nextState : State)
  | ErrSymbolNotInAlphabet (symbol : Symbol)
  | ErrTransitionAlreadyDefined (state : State) (symbol : Symbol)
  | ErrNoStates
  | ErrNoAlphabet
  | ErrNoInitialState
  | ErrNoFinalStates
  | ErrInitialStateNotInStates
  | ErrTransitionNotDefined (state : State) (symbol : Symbol)
  | ErrNoTransition (state : State) (symbol : Symbol).

(** [err.Error()]: the formatted message ([%s] prints the label as it is). *)
Definition Error (e : error) : string :=
  match e with
  | ErrStateNotInSet state => "state " +:+ state +:+ " not in state set"
  | ErrNextStateNotInSet nextState => "next state " +:+ nextState +:+ " not in state set"
  | ErrSymbolNotInAlphabet symbol => "symbol " +:+ symbol +:+ " not in alphabet"
  | ErrTransitionAlreadyDefined state symbol =>
      "transition δ(" +:+ state +:+ ", " +:+ symbol +:+ ") already defined"
  | ErrNoStates => "FSM must have at least one state"
  | ErrNoAlphabet => "FSM must have at least one symbol in alphabet"
  | ErrNoInitialState => "FSM must have an initial state"
  | ErrNoFinalStates => "FSM must have at least one final state"
  | ErrInitialStateNotInStates => "initial state must be in state set"
  | ErrTransitionNotDefined state symbol =>
      "transition δ(" +:+ state +:+ ", " +:+ symbol +:+ ") is not defined"
  | ErrNoTransition state symbol =>
      "no transition defined for δ(" +:+ state +:+ ", " +:+ symbol +:+ ")"
  end.

(** The names under which the design documents refer to these failures. *)
Inductive ErrorKind : Type :=
  | UnknownState | UnknownSymbol | DuplicateTransition
  | EmptyStates | EmptyAlphabet | MissingInitialState | EmptyFinalStates
  | InitialStateNotInStates | MissingTransition | TransitionUndefined.

Definition kind (e : error) : ErrorKind :=
  match e with
  | ErrStateNotInSet _ | ErrNextStateNotInSet _ => UnknownState
  | ErrSymbolNotInAlphabet _ => UnknownSymbol
  | ErrTransitionAlreadyDefined _ _ => DuplicateTransition
  | ErrNoStates => EmptyStates
  | ErrNoAlphabet => EmptyAlphabet
  | ErrNoInitialState => MissingInitialState
  | ErrNoFinalStates => EmptyFinalStates
  | ErrInitialStateNotInStates => InitialStateNotInStates
  | ErrTransitionNotDefined _ _ => MissingTransition
  | ErrNoTransition _ _ => TransitionUndefined
  end.

(** ** Iteration order of [range] over a map

    Go does not fix the order in which [range] visits a map. The three
    [range] loops over maps that matter here take their order from a
    [RangeOrder]: any enumeration of the keys (entries) without repetition.
    The inner loop of [Build] may use a different order for each state of the
    outer loop, the inner loop of [AddTransitions] a different one for each
    position of the batch. *)
Record RangeOrder : Type := mkRangeOrder {
  range_states : gmap State bool → list State;
  range_alphabet : State → gmap Symbol bool → list Symbol;
  range_transition : nat → gmap TransitionKey State → list (TransitionKey * State);
  range_states_perm : ∀ m, range_states m ≡ₚ (map_to_list m).*1;
  range_alphabet_perm : ∀ state m, range_alphabet state m ≡ₚ (map_to_list m).*1;
  range_transition_perm : ∀ i m, range_transition i m ≡ₚ map_to_list m
}.

(** One admissible order: the one of [map_to_list]. *)
Definition canonical_order : RangeOrder :=
  mkRangeOrder (λ m, (map_to_list m).*1) (λ _ m, (map_to_list m).*1)
               (λ _ m, map_to_list m)
               (λ _, reflexivity _) (λ _ _, reflexivity _) (λ _ _, reflexivity _).

(** ** Strings as sequences of symbols

    [for _, char := range input] decodes [input] as UTF-8, one rune per
    iteration; a byte that does not start a well-formed encoding yields
    U+FFFD and the loop advances by one byte. *)
Definition rune : Type := N.

Definition runeError : rune := 0xFFFD%N.

(** A continuation byte, [0x80 <= b <= 0xBF]. *)
Definition is_cont (b : N) : bool := ((0x80 <=? b) && (b <=? 0xBF))%N.

Fixpoint runes (s : string) : list rune :=
  match s with
  | EmptyString => []
  | String c0 s1 =>
    let b0 := N_of_ascii c0 in
    let invalid := runeError :: runes s1 in
    if (b0 <? 0x80)%N then b0 :: runes s1
    else if ((0xC0 <=? b0) && (b0 <? 0xE0))%N then
      match s1 with
      | String c1 s2 =>
        let b1 := N_of_ascii c1 in
        let r := N.lor (N.shiftl (N.land b0 0x1F) 6) (N.land b1 0x3F) in
        if is_cont b1 && (0x7F <? r)%N then r :: runes s2 else invalid
      | _ => invalid
      end
    else if ((0xE0 <=? b0) && (b0 <? 0xF0))%N then
      match s1 with
      | String c1 (String c2 s3) =>
        let b1 := N_of_ascii c1 in
        let b2 := N_of_ascii c2 in
        let r := N.lor (N.lor (N.shiftl (N.land b0 0x0F) 12)
                              (N.shiftl (N.land b1 0x3F) 6))
                       (N.land b2 0x3F) in
        if is_cont b1 && is_cont b2 && (0x7FF <? r)%N
           && negb ((0xD800 <=? r) && (r <=? 0xDFFF))%N
        then r :: runes s3 else invalid
      | _ => invalid
      end
    else if ((0xF0 <=? b0) && (b0 <? 0xF8))%N then
      match s1 with
      | String c1 (String c2 (String c3 s4)) =>
        let b1 := N_of_ascii c1 in
        let b2 := N_of_ascii c2 in
        let b3 := N_of_ascii c3 in
        let r := N.lor (N.lor (N.lor (N.shiftl (N.land b0 0x07) 18)
                                     (N.shiftl (N.land b1 0x3F) 12))
                              (N.shiftl (N.land b2 0x3F) 6))
                       (N.land b3 0x3F) in
        if is_cont b1 && is_cont b2 && is_cont b3
           && (0xFFFF <? r)%N && (r <=? 0x10FFFF)%N
        then r :: runes s4 else invalid
      | _ => invalid
      end
    else invalid
  end.

(** [Symbol(char)]: the conversion of a rune to a string, its UTF-8
    encoding; a surrogate or a value above U+10FFFF becomes U+FFFD. *)
Definition utf8_byte (n : N) : ascii := ascii_of_N n.

Definition string_of_rune (r : rune) : string :=
  let three (r : N) :=
    String (utf8_byte (N.lor 0xE0 (N.shiftr r 12)))
      (String (utf8_byte (N.lor 0x80 (N.land (N.shiftr r 6) 0x3F)))
        (String (utf8_byte (N.lor 0x80 (N.land r 0x3F))) EmptyString)) in
  if (r <? 0x80)%N then String (utf8_byte r) EmptyString
  else if (r <? 0x800)%N then
    String (utf8_byte (N.lor 0xC0 (N.shiftr r 6)))
      (String (utf8_byte (N.lor 0x80 (N.land r 0x3F))) EmptyString)
  else if ((0x10FFFF <? r) || ((0xD800 <=? r) && (r <=? 0xDFFF)))%N then three runeError
  else if (r <? 0x10000)%N then three r
  else
    String (utf8_byte (N.lor 0xF0 (N.shiftr r 18)))
      (String (utf8_byte (N.lor 0x80 (N.land (N.shiftr r 12) 0x3F)))
        (String (utf8_byte (N.lor 0x80 (N.land (N.shiftr r 6) 0x3F)))
          (String (utf8_byte (N.lor 0x80 (N.land r 0x3F))) EmptyString))).

(** The symbols that [ProcessString] feeds to [step], in order. *)
Definition symbols_of (input : string) : list Symbol :=
  string_of_rune <$> runes input.

(** ** Builder: the effect of each method on the FSM behind [b.fsm]

    A method of [*Builder] returns [b] itself (and an error); what it does is
    its effect on the object [b.fsm] points to. Below, a method maps that
    object to the updated object, paired with the error it returns
    ([None] for [nil]). *)

(** [NewBuilder]: four empty maps, both labels the zero value [""]. *)
Definition NewFSM : FSM := mkFSM ∅ ∅ "" ∅ ∅ "".

(** [AddStates]: [b.fsm.states[state] = true] for each argument. *)
Definition AddStates (sts : list State) (f : FSM) : FSM :=
  foldl (λ f state, set_states (<[state := true]> (states f)) f) f sts.

(** [AddSymbols]: [b.fsm.alphabet[symbol] = true] for each argument. *)
Definition AddSymbols (symbols : list Symbol) (f : FSM) : FSM :=
  foldl (λ f symbol, set_alphabet (<[symbol := true]> (alphabet f)) f) f symbols.

Definition SetInitialState (state : State) (f : FSM) : FSM * option error :=
  if negb (has (states f) state) then (f, Some (ErrStateNotInSet state))
  else (set_initialState state f, None).

Fixpoint AddFinalStates (sts : list State) (f : FSM) : FSM * option error :=
  match sts with
  | [] => (f, None)
  | state :: rest =>
    if negb (has (states f) state) then (f, Some (ErrStateNotInSet state))
    else AddFinalStates rest (set_finalStates (<[state := true]> (finalStates f)) f)
  end.

Definition AddTransition (state : State) (symbol : Symbol) (nextState : State)
    (f : FSM) : FSM * option error :=
  if negb (has (states f) state) then (f, Some (ErrStateNotInSet state))
  else if negb (has (states f) nextState) then (f, Some (ErrNextStateNotInSet nextState))
  else if negb (has (alphabet f) symbol) then (f, Some (ErrSymbolNotInAlphabet symbol))
  else
    let key := mkKey state symbol in
    match transitions f !! key with
    | Some _ => (f, Some (ErrTransitionAlreadyDefined state symbol))
    | None => (set_transitions (<[key := nextState]> (transitions f)) f, None)
    end.

(** The inner loop of [AddTransitions], over the entries of one map in the
    order [range] delivers them. *)
Fixpoint AddTransitions_entries (entries : list (TransitionKey * State)) (f : FSM)
    : FSM * option error :=
  match entries with
  | [] => (f, None)
  | (key, nextState) :: rest =>
    match AddTransition (key_State key) (key_Symbol key) nextState f with
    | (f', Some err) => (f', Some err)
    | (f', None) => AddTransitions_entries rest f'
    end
  end.

(** The outer loop of [AddTransitions], from position [i] of the slice. *)
Fixpoint AddTransitions_from (o : RangeOrder) (i : nat)
    (batch : list (gmap TransitionKey State)) (f : FSM) : FSM * option error :=
  match batch with
  | [] => (f, None)
  | transition :: rest =>
    match AddTransitions_entries (range_transition o i transition) f with
    | (f', Some err) => (f', Some err)
    | (f', None) => AddTransitions_from o (S i) rest f'
    end
  end.

Definition AddTransitions (o : RangeOrder) (batch : list (gmap TransitionKey State))
    (f : FSM) : FSM * option error :=
  AddTransitions_from o 0 batch f.

(** The inner loop of [Build]: the symbols of the alphabet, for one state. *)
Fixpoint Build_symbols (tr : gmap TransitionKey State) (state : State)
    (symbols : list Symbol) : option error :=
  match symbols with
  | [] => None
  | symbol :: rest =>
    match tr !! mkKey state symbol with
    | None => Some (ErrTransitionNotDefined state symbol)
    | Some _ => Build_symbols tr state rest
    end
  end.

(** The outer loop of [Build]: the states. *)
Fixpoint Build_states (o : RangeOrder) (f : FSM) (sts : list State) : option error :=
  match sts with
  | [] => None
  | state :: rest =>
    match Build_symbols (transitions f) state (range_alphabet o state (alphabet f)) with
    | Some err => Some err
    | None => Build_states o f rest
    end
  end.

(** [Build]: on success the object itself (with the cursor on the initial
    state) is what the caller receives; on failure the caller receives [nil]
    and the object is as it was. *)
Definition Build (o : RangeOrder) (f : FSM) : FSM * option error :=
  if bool_decide (size (states f) = 0) then (f, Some ErrNoStates)
  else if bool_decide (size (alphabet f) = 0) then (f, Some ErrNoAlphabet)
  else if bool_decide (initialState f = "") then (f, Some ErrNoInitialState)
  else if bool_decide (size (finalStates f) = 0) then (f, Some ErrNoFinalStates)
  else if negb (has (states f) (initialState f)) then (f, Some ErrInitialStateNotInStates)
  else
    match Build_states o f (range_states o (states f)) with
    | Some err => (f, Some err)
    | None => (set_currentState (initialState f) f, None)
    end.

(** ** FSM: the executor *)

Definition Reset (f : FSM) : FSM := set_currentState (initialState f) f.

Definition CurrentState (f : FSM) : State := currentState f.

Definition step (symbol : Symbol) (f : FSM) : FSM * option error :=
  if negb (has (alphabet f) symbol) then (f, Some (ErrSymbolNotInAlphabet symbol))
  else
    let key := mkKey (currentState f) symbol in
    match transitions f !! key with
    | None => (f, Some (ErrNoTransition (currentState f) symbol))
    | Some nextState => (set_currentState nextState f, None)
    end.

(** The loop of [ProcessString] over the symbols of the input. *)
Fixpoint ProcessString_loop (symbols : list Symbol) (f : FSM) : FSM * option error :=
  match symbols with
  | [] => (f, None)
  | symbol :: rest =>
    match step symbol f with
    | (f', Some err) => (f', Some err)
    | (f', None) => ProcessString_loop rest f'
    end
  end.

Definition ProcessString (input : string) (f : FSM) : FSM * option error :=
  ProcessString_loop (symbols_of input) f.

Definition IsFinalState (f : FSM) : bool := has (finalStates f) (currentState f).

Definition ProcessInput (input : string) (f : FSM) : FSM * (bool * option error) :=
  let f := Reset f in
  match ProcessString input f with
  | (f, Some err) => (f, (false, Some err))
  | (f, None) => (f, (IsFinalState f, None))
  end.

(** ** The modulo-three automaton of [main.go] *)

(** The [transitions] slice: six maps of one entry each. *)
Definition main_transitions : list (gmap TransitionKey State) :=
  [ {[ mkKey "S0" "0" := "S0" ]};
    {[ mkKey "S0" "1" := "S1" ]};
    {[ mkKey "S1" "0" := "S2" ]};
    {[ mkKey "S1" "1" := "S0" ]};
    {[ mkKey "S2" "0" := "S1" ]};
    {[ mkKey "S2" "1" := "S2" ]} ].

(** The builder calls of [main], each followed by main's [if err != nil
    { return }]: [None] when a call fails. *)
Definition main_builder (o : RangeOrder) : option FSM :=
  let f := AddSymbols ["0"; "1"] (AddStates ["S0"; "S1"; "S2"] NewFSM) in
  match SetInitialState "S0" f with
  | (_, Some _) => None
  | (f, None) =>
    match AddFinalStates ["S0"; "S1"; "S2"] f with
    | (_, Some _) => None
    | (f, None) =>
      match AddTransitions o main_transitions f with
      | (_, Some _) => None
      | (f, None) => Some f
      end
    end
  end.

Definition moduloThreeAutomaton (o : RangeOrder) : option FSM :=
  match main_builder o with
  | None => None
  | Some f =>
    match Build o f with
    | (_, Some _) => None
    | (f, None) => Some f
    end
  end.

(** The [switch] of [main] on [CurrentState()]: the residue each state
    stands for ([None] is the [default] branch). *)
Definition main_residue (s : State) : option N :=
  if bool_decide (s = "S0") then Some 0%N
  else if bool_decide (s = "S1") then Some 1%N
  else if bool_decide (s = "S2") then Some 2%N
  else None.

(** ** Sequences of calls on one object *)

(** The six mutators of the Builder. *)
Inductive BuilderCall : Type :=
  | CallAddStates (sts : list State)
  | CallAddSymbols (symbols : list Symbol)
  | CallSetInitialState (state : State)
  | CallAddFinalStates (sts : list State)
  | CallAddTransition (state : State) (symbol : Symbol) (nextState : State)
  | CallAddTransitions (o : RangeOrder) (batch : list (gmap TransitionKey State)).

Definition call_builder (c : BuilderCall) (f : FSM) : FSM * option error :=
  match c with
  | CallAddStates sts => (AddStates sts f, None)
  | CallAddSymbols symbols => (AddSymbols symbols f, None)
  | CallSetInitialState state => SetInitialState state f
  | CallAddFinalStates sts => AddFinalStates sts f
  | CallAddTransition state symbol nextState => AddTransition state symbol nextState f
  | CallAddTransitions o batch => AddTransitions o batch f
  end.

(** Every call that can reach the object: through the Builder (mutators and
    [Build]) or through the automaton [Build] handed out. *)
Inductive Call : Type :=
  | CallBuilder (c : BuilderCall)
  | CallBuild (o : RangeOrder)
  | CallReset
  | CallStep (symbol : Symbol)
  | CallProcessString (input : string)
  | CallProcessInput (input : string).

Definition call (c : Call) (f : FSM) : FSM :=
  match c with
  | CallBuilder c => (call_builder c f).1
  | CallBuild o => (Build o f).1
  | CallReset => Reset f
  | CallStep symbol => (step symbol f).1
  | CallProcessString input => (ProcessString input f).1
  | CallProcessInput input => (ProcessInput input f).1
  end.

(** The object after a sequence of calls, whatever each call returned. *)
Definition run (calls : list Call) (f : FSM) : FSM :=
  foldl (λ f c, call c f) f calls.

(** ** Pointers: [*Builder] and [*FSM]

    [Builder] holds a pointer to its FSM; [Build] returns that very pointer.
    The store maps each allocated address to the FSM it holds. A method
    yields [None] where Go panics on a nil dereference, which a Builder made
    by [NewBuilder] never does. *)
Definition ptr : Type := nat.

Record Builder : Type := mkBuilder { fsm : ptr }.

(** Run [m] on the object at [p] and write the result back. *)
Definition at_ptr {A} (p : ptr) (m : FSM → FSM * A) (h : gmap ptr FSM)
    : option (A * gmap ptr FSM) :=
  match h !! p with
  | None => None
  | Some f => let '(f', a) := m f in Some (a, <[p := f']> h)
  end.

Definition NewBuilder (h : gmap ptr FSM) : Builder * gmap ptr FSM :=
  let p := fresh (dom h) in (mkBuilder p, <[p := NewFSM]> h).

(** A mutator of the Builder: returns [b] and the error. *)
Definition Builder_call (b : Builder) (c : BuilderCall) (h : gmap ptr FSM)
    : option ((Builder * option error) * gmap ptr FSM) :=
  at_ptr (fsm b) (λ f, let '(f', err) := call_builder c f in (f', (b, err))) h.

(** [Build], method of a Builder pointer: [return nil, err] or
    [return b.fsm, nil]. *)
Definition Builder_Build (o : RangeOrder) (b : Builder) (h : gmap ptr FSM)
    : option ((option ptr * option error) * gmap ptr FSM) :=
  at_ptr (fsm b)
    (λ f, match Build o f with
          | (f', Some err) => (f', (None, Some err))
          | (f', None) => (f', (Some (fsm b), None))
          end) h.

(** A sequence of mutator calls on [b], each result discarded. *)
Fixpoint Builder_calls (b : Builder) (calls : list BuilderCall) (h : gmap ptr FSM)
    : option (gmap ptr FSM) :=
  match calls with
  | [] => Some h
  | c :: rest =>
    match Builder_call b c h with
    | None => None
    | Some (_, h') => Builder_calls b rest h'
    end
  end.

(** [ProcessInput], method of an FSM pointer. *)
Definition FSM_ProcessInput (p : ptr) (input : string) (h : gmap ptr FSM)
    : option ((bool * option error) * gmap ptr FSM) :=
  at_ptr p (ProcessInput input) h.

(** The four structural fields of an automaton. *)
Definition structure (f : FSM)
    : gmap State bool * gmap Symbol bool * gmap State bool * gmap TransitionKey State :=
  (states f, alphabet f, finalStates f, transitions f).

(** The builder calls of [main] on a fresh Builder, through the pointers. *)
Definition main_calls (o : RangeOrder) : list BuilderCall :=
  [ CallAddStates ["S0"; "S1"; "S2"];
    CallAddSymbols ["0"; "1"];
    CallSetInitialState "S0";
    CallAddFinalStates ["S0"; "S1"; "S2"];
    CallAddTransitions o main_transitions ].

(** ** Vocabulary of the statements *)

(** [steps_ok symbols f f']: [step] succeeds on every symbol of [symbols] in
    turn, leading from [f] to [f']. *)
Inductive steps_ok : list Symbol → FSM → FSM → Prop :=
  | steps_ok_nil f : steps_ok [] f f
  | steps_ok_cons symbol rest f f1 f2 :
      step symbol f = (f1, None) → steps_ok rest f1 f2 →
      steps_ok (symbol :: rest) f f2.

(** [(state, symbol)] is a pair of the cross product visited by [Build] that
    has no transition. *)
Definition missing (f : FSM) (state : State) (symbol : Symbol) : Prop :=
  state ∈ dom (states f) ∧ symbol ∈ dom (alphabet f) ∧
  transitions f !! mkKey state symbol = None.

(** The transition function is defined on the whole cross product. *)
Definition total (f : FSM) : Prop :=
  ∀ state symbol, state ∈ dom (states f) → symbol ∈ dom (alphabet f) →
    is_Some (transitions f !! mkKey state symbol).

(** Every target of a transition is a member of the state set. *)
Definition targets_in_states (f : FSM) : Prop :=
  ∀ key nextState, transitions f !! key = Some nextState →
    has (states f) nextState = true.

(** No member of the set [m] is lost in [m']. *)
Definition grows `{Countable K} (m m' : gmap K bool) : Prop :=
  ∀ k, has m k = true → has m' k = true.

(** [f'] has every member of the three sets of [f] and every transition of
    [f], with the same target. *)
Record extends (f f' : FSM) : Prop := mkExtends {
  extends_states : grows (states f) (states f');
  extends_alphabet : grows (alphabet f) (alphabet f');
  extends_finalStates : grows (finalStates f) (finalStates f');
  extends_transitions : transitions f ⊆ transitions f'
}.

(** The labels of [sts] inserted into a set, in order. *)
Definition insert_all (sts : list State) (m : gmap State bool) : gmap State bool :=
  foldl (λ m state, <[state := true]> m) m sts.

(** A string of binary digits, and the number it denotes (most significant
    digit first; the empty string denotes 0). *)
Definition is_digit (c : ascii) : bool :=
  bool_decide (c = "0"%char) || bool_decide (c = "1"%char).

Fixpoint is_binary (w : string) : bool :=
  match w with
  | EmptyString => true
  | String c w => is_digit c && is_binary w
  end.

Definition digit_value (c : ascii) : N := if bool_decide (c = "1"%char) then 1 else 0.

Fixpoint binary_value_from (acc : N) (w : string) : N :=
  match w with
  | EmptyString => acc
  | String c w => binary_value_from (2 * acc + digit_value c) w
  end.

Definition binary_value (w : string) : N := binary_value_from 0 w.

(** The state of the modulo-three automaton that stands for residue [k]. *)
Definition residue_state (k : N) : State :=
  match k with
  | 0%N => "S0"
  | 1%N => "S1"
  | _ => "S2"
  end.

(** The object behind main's builder when [Build] is called (the entries of
    the one-entry maps of [main_transitions] can come in one order only). *)
Definition main_fsm : FSM := default NewFSM (main_builder canonical_order).

(** ** The getters

    [GetStates], [GetAlphabet] and [GetFinalStates] each [range] over one of
    the three sets and [append] every key to a fresh slice. The order of the
    [range] is again an argument. *)
Record KeysOrder : Type := mkKeysOrder {
  range_keys : gmap string bool → list string;
  range_keys_perm : ∀ m, range_keys m ≡ₚ (map_to_list m).*1
}.

Definition canonical_keys : KeysOrder :=
  mkKeysOrder (λ m, (map_to_list m).*1) (λ _, reflexivity _).

Definition GetStates (k : KeysOrder) (f : FSM) : list State :=
  foldl (λ sts state, sts ++ [state])%list [] (range_keys k (states f)).

Definition GetAlphabet (k : KeysOrder) (f : FSM) : list Symbol :=
  foldl (λ alphabet symbol, alphabet ++ [symbol])%list [] (range_keys k (alphabet f)).

Definition GetFinalStates (k : KeysOrder) (f : FSM) : list State :=
  foldl (λ finalStates state, finalStates ++ [state])%list []
        (range_keys k (finalStates f)).

(** ** The program [main]

    What [main] writes to standard output, line by line. [fmt.Println] puts a
    space between its operands. *)
Definition main_switch (input : string) (s : State) : string :=
  if bool_decide (s = "S0") then input +:+ " => S0 (mod 3 = 0)"
  else if bool_decide (s = "S1") then input +:+ " => S1 (mod 3 = 1)"
  else if bool_decide (s = "S2") then input +:+ " => S2 (mod 3 = 2)"
  else "Unknown state: " +:+ s.

Definition main (o : RangeOrder) : list string :=
  let f := AddSymbols ["0"; "1"] (AddStates ["S0"; "S1"; "S2"] NewFSM) in
  match SetInitialState "S0" f with
  | (_, Some err) => ["Error setting initial state: " +:+ Error err]
  | (f, None) =>
  match AddFinalStates ["S0"; "S1"; "S2"] f with
  | (_, Some err) => ["Error adding final states: " +:+ Error err]
  | (f, None) =>
  match AddTransitions o main_transitions f with
  | (_, Some err) => ["Error adding transitions: " +:+ Error err]
  | (f, None) =>
  match Build o f with
  | (_, Some err) => ["Error building FSM: " +:+ Error err]
  | (a, None) =>
  match ProcessInput "110" a with
  | (_, (_, Some err)) => ["Error processing output: " +:+ Error err]
  | (a, (_, None)) =>
    let line1 := main_switch "110" (CurrentState a) in
    let a := Reset a in
    match ProcessInput "1101" a with
    | (_, (_, Some err)) => [line1; "Error processing output: " +:+ Error err]
    | (a, (_, None)) => [line1; main_switch "1101" (CurrentState a)]
    end
  end end end end end.

(** ** Vocabulary of the further statements *)

(** What every object made by [NewBuilder] and used through the package
    satisfies: the sets hold [true] only; final states, the two ends and the
    symbol of every transition, the initial state and the cursor (when not
    the zero value) are declared. *)
Record wf (f : FSM) : Prop := mkWf {
  wf_states : ∀ k v, states f !! k = Some v → v = true;
  wf_alphabet : ∀ k v, alphabet f !! k = Some v → v = true;
  wf_finalStates : ∀ k v, finalStates f !! k = Some v → v = true;
  wf_final_in_states : ∀ k, has (finalStates f) k = true → has (states f) k = true;
  wf_transitions : ∀ key nextState, transitions f !! key = Some nextState →
    has (states f) (key_State key) = true ∧
    has (alphabet f) (key_Symbol key) = true ∧
    has (states f) nextState = true;
  wf_initialState : initialState f = "" ∨ has (states f) (initialState f) = true;
  wf_currentState : currentState f = "" ∨ has (states f) (currentState f) = true
}.

(** An entry of a batch that passes the three membership checks of
    [AddTransition]. *)
Definition valid_entry (f : FSM) (e : TransitionKey * State) : Prop :=
  has (states f) (key_State e.1) = true ∧ has (states f) e.2 = true ∧
  has (alphabet f) (key_Symbol e.1) = true.

(** The entries of a batch in the order [AddTransitions] meets them, from
    position [i]. *)
Fixpoint batch_entries (o : RangeOrder) (i : nat)
    (batch : list (gmap TransitionKey State)) : list (TransitionKey * State) :=
  match batch with
  | [] => []
  | transition :: rest =>
    (range_transition o i transition ++ batch_entries o (S i) rest)%list
  end.

(** A string of 7-bit characters, and its characters as one-byte symbols. *)
Fixpoint is_ascii (w : string) : bool :=
  match w with
  | EmptyString => true
  | String c w => (N_of_ascii c <? 0x80)%N && is_ascii w
  end.

Fixpoint chars (w : string) : list Symbol :=
  match w with
  | EmptyString => []
  | String c w => String c EmptyString :: chars w
  end.

(** The order of [k] turned around: as admissible as [k] itself. *)
Definition reverse_keys (k : KeysOrder) : KeysOrder :=
  mkKeysOrder (λ m, reverse (range_keys k m))
    (λ m, transitivity (reverse_Permutation _) (range_keys_perm k m)).

(** Likewise for the three [range] loops of the Builder. *)
Definition reverse_order (o : RangeOrder) : RangeOrder :=
  mkRangeOrder
    (λ m, reverse (range_states o m))
    (λ state m, reverse (range_alphabet o state m))
    (λ i m, reverse (range_transition o i m))
    (λ m, transitivity (reverse_Permutation _) (range_states_perm o m))
    (λ state m, transitivity (reverse_Permutation _) (range_alphabet_perm o state m))
    (λ i m, transitivity (reverse_Permutation _) (range_transition_perm o i m)).

(** The condition under which a sequence of entries is accepted in full. *)
Definition entries_ok (f : FSM) (entries : list (TransitionKey * State)) : Prop :=
  Forall (valid_entry f) entries ∧ NoDup entries.*1 ∧
  ∀ key, key ∈ entries.*1 → transitions f !! key = None.

(** ** Calls on the automaton only

    The methods of [*FSM] that move the cursor, as a caller holding only the
    automaton can make them, each with the error it returns ([ProcessInput]
    also returns the verdict, left out here). *)
Inductive FSMCall : Type :=
  | DoReset
  | DoStep (symbol : Symbol)
  | DoProcessString (input : string)
  | DoProcessInput (input : string).

Definition call_fsm (c : FSMCall) (f : FSM) : FSM * option error :=
  match c with
  | DoReset => (Reset f, None)
  | DoStep symbol => step symbol f
  | DoProcessString input => ProcessString input f
  | DoProcessInput input =>
    match ProcessInput input f with
    | (f', (_, err)) => (f', err)
    end
  end.

(** One call through the pointer [p], and a sequence of them with the errors
    they return, in order. *)
Definition FSM_call (p : ptr) (c : FSMCall) (h : gmap ptr FSM)
    : option (option error * gmap ptr FSM) :=
  at_ptr p (call_fsm c) h.

Fixpoint FSM_calls (p : ptr) (calls : list FSMCall) (h : gmap ptr FSM)
    : option (list (option error) * gmap ptr FSM) :=
  match calls with
  | [] => Some ([], h)
  | c :: rest =>
    match FSM_call p c h with
    | None => None
    | Some (err, h') =>
      match FSM_calls p rest h' with
      | None => None
      | Some (errs, h'') => Some (err :: errs, h'')
      end
    end
  end.

(** * Properties *)

(** ** Field assignments and membership *)

Lemma set_currentState_id f : set_currentState (currentState f) f = f.
Proof. by destruct f. Qed.

Lemma set_currentState_twice s s' f :
  set_currentState s (set_currentState s' f) = set_currentState s f.
Proof. done. Qed.

Lemma has_true `{Countable K} (m : gmap K bool) k : has m k = true ↔ m !! k = Some true.
Proof.
  unfold has. destruct (m !! k) as [[]|]; simpl; split; intros ?; congruence.
Qed.

Lemma has_true_dom `{Countable K} (m : gmap K bool) k : has m k = true → k ∈ dom m.
Proof. rewrite has_true, elem_of_dom. intros ->. eauto. Qed.

Lemma has_insert `{Countable K} (m : gmap K bool) k k' :
  has (<[k := true]> m) k' = bool_decide (k = k') || has m k'.
Proof.
  unfold has. rewrite lookup_insert. case_decide; subst.
  - by rewrite bool_decide_eq_true_2.
  - by rewrite bool_decide_eq_false_2.
Qed.

Lemma grows_refl `{Countable K} (m : gmap K bool) : grows m m.
Proof. by intros k. Qed.

Lemma grows_trans `{Countable K} (m1 m2 m3 : gmap K bool) :
  grows m1 m2 → grows m2 m3 → grows m1 m3.
Proof. intros H12 H23 k Hk. auto. Qed.

Lemma grows_insert `{Countable K} (m : gmap K bool) k : grows m (<[k := true]> m).
Proof. intros k' Hk'. rewrite has_insert, Hk'. apply orb_true_r. Qed.

(** ** The executor moves the cursor and nothing else *)

Lemma step_cursor_only symbol f :
  (step symbol f).1 = set_currentState (currentState (step symbol f).1) f.
Proof.
  unfold step. destruct (negb _); simpl; [by rewrite set_currentState_id|].
  destruct (transitions f !! _); simpl; [done | by rewrite set_currentState_id].
Qed.

Lemma step_failure_unchanged symbol f f' err :
  step symbol f = (f', Some err) → f' = f.
Proof.
  unfold step. destruct (negb _); [congruence|].
  destruct (transitions f !! _); congruence.
Qed.

Lemma ProcessString_loop_cursor_only symbols f :
  (ProcessString_loop symbols f).1 =
  set_currentState (currentState (ProcessString_loop symbols f).1) f.
Proof.
  revert f. induction symbols as [|symbol rest IH]; intros f; simpl.
  - by rewrite set_currentState_id.
  - pose proof (step_cursor_only symbol f) as Hs.
    destruct (step symbol f) as [f1 [err|]]; simpl in *; [done|].
    rewrite IH at 1. rewrite Hs at 2. done.
Qed.

Lemma ProcessInput_cursor_only input f :
  (ProcessInput input f).1 =
  set_currentState (currentState (ProcessInput input f).1) f.
Proof.
  unfold ProcessInput, ProcessString.
  pose proof (ProcessString_loop_cursor_only (symbols_of input) (Reset f)) as Hl.
  destruct (ProcessString_loop _ _) as [f1 [err|]]; simpl in *; by rewrite Hl at 1.
Qed.

Lemma ProcessInput_forgets_cursor input s f :
  ProcessInput input (set_currentState s f) = ProcessInput input f.
Proof. done. Qed.

(** ** AddTransition *)

(** C5. [AddTransition state symbol nextState] checks, in this order: [state]
    is in the state set (else UnknownState), [nextState] is in the state set
    (else UnknownState), [symbol] is in the alphabet (else UnknownSymbol), no
    mapping exists for [(state, symbol)] (else DuplicateTransition, with the
    message "transition δ(q0, 0) already defined" for the pair (q0, 0)). A
    failing call leaves the object as it was; the call succeeds exactly when
    the four checks pass, and then it registers [(state, symbol) → nextState]
    and nothing else. *)
Theorem AddTransition_precedence state symbol nextState f :
  (has (states f) state = false →
     AddTransition state symbol nextState f = (f, Some (ErrStateNotInSet state))) ∧
  (has (states f) state = true → has (states f) nextState = false →
     AddTransition state symbol nextState f = (f, Some (ErrNextStateNotInSet nextState))) ∧
  (has (states f) state = true → has (states f) nextState = true →
   has (alphabet f) symbol = false →
     AddTransition state symbol nextState f = (f, Some (ErrSymbolNotInAlphabet symbol))) ∧
  (has (states f) state = true → has (states f) nextState = true →
   has (alphabet f) symbol = true → is_Some (transitions f !! mkKey state symbol) →
     AddTransition state symbol nextState f =
       (f, Some (ErrTransitionAlreadyDefined state symbol))) ∧
  (has (states f) state = true → has (states f) nextState = true →
   has (alphabet f) symbol = true → transitions f !! mkKey state symbol = None →
     AddTransition state symbol nextState f =
       (set_transitions (<[mkKey state symbol := nextState]> (transitions f)) f, None)) ∧
  ((AddTransition state symbol nextState f).2 = None ↔
     has (states f) state = true ∧ has (states f) nextState = true ∧
     has (alphabet f) symbol = true ∧ transitions f !! mkKey state symbol = None) ∧
  kind (ErrStateNotInSet state) = UnknownState ∧
  kind (ErrNextStateNotInSet nextState) = UnknownState ∧
  kind (ErrSymbolNotInAlphabet symbol) = UnknownSymbol ∧
  kind (ErrTransitionAlreadyDefined state symbol) = DuplicateTransition ∧
  Error (ErrTransitionAlreadyDefined "q0" "0") = "transition δ(q0, 0) already defined".
Proof.
  unfold AddTransition.
  destruct (has (states f) state) eqn:Hs, (has (states f) nextState) eqn:Hn,
    (has (alphabet f) symbol) eqn:Ha, (transitions f !! mkKey state symbol) eqn:Ht;
    simpl; repeat split; try done; try (intros; congruence);
    try (by intros _ _ _ [? ?]); try (by intros (? & ? & ? & ?));
    try (intros; exfalso; eauto using is_Some_None; fail).
Qed.

(** The second of two identical calls, as in the package's test: the pair
    (q0, 0) is already defined. *)
Lemma AddTransition_precedence_witness :
  let f := AddSymbols ["0"; "1"] (AddStates ["q0"; "q1"; "q2"] NewFSM) in
  let f1 := (AddTransition "q0" "0" "q1" f).1 in
  AddTransition "q0" "0" "q1" f1 = (f1, Some (ErrTransitionAlreadyDefined "q0" "0")).
Proof.
  intros f f1.
  destruct (AddTransition_precedence "q0" "0" "q1" f1) as (_ & _ & _ & Hdup & _).
  apply Hdup; [reflexivity | reflexivity | reflexivity | ].
  exists "q1". vm_compute. reflexivity.
Defined.

(** ** AddFinalStates *)

Lemma AddFinalStates_states sts f : states (AddFinalStates sts f).1 = states f.
Proof.
  revert f. induction sts as [|state rest IH]; intros f; simpl; [done|].
  destruct (negb _); [done|]. by rewrite IH.
Qed.

Lemma AddFinalStates_all sts f :
  Forall (λ state, has (states f) state = true) sts →
  AddFinalStates sts f = (set_finalStates (insert_all sts (finalStates f)) f, None).
Proof.
  revert f. induction sts as [|state rest IH]; intros f Hall; simpl.
  - by destruct f.
  - inversion_clear Hall as [|? ? Hstate Hrest]. rewrite Hstate; simpl.
    rewrite IH; [done|]. done.
Qed.

Lemma AddFinalStates_stops pre bad post f :
  Forall (λ state, has (states f) state = true) pre →
  has (states f) bad = false →
  AddFinalStates (pre ++ bad :: post)%list f =
    (set_finalStates (insert_all pre (finalStates f)) f, Some (ErrStateNotInSet bad)).
Proof.
  revert f. induction pre as [|state rest IH]; intros f Hall Hbad; simpl.
  - rewrite Hbad; simpl. by destruct f.
  - inversion_clear Hall as [|? ? Hstate Hrest]. rewrite Hstate; simpl.
    rewrite IH; done.
Qed.

Lemma insert_all_grows sts m : grows m (insert_all sts m).
Proof.
  revert m. induction sts as [|state rest IH]; intros m; simpl; [apply grows_refl|].
  eapply grows_trans; [apply grows_insert | apply IH].
Qed.

Lemma insert_all_has sts m state : state ∈ sts → has (insert_all sts m) state = true.
Proof.
  revert m. induction sts as [|state' rest IH]; intros m Hin; simpl.
  - by apply elem_of_nil in Hin.
  - apply elem_of_cons in Hin as [->|Hin]; [|by apply IH].
    apply insert_all_grows. rewrite has_insert. by rewrite bool_decide_eq_true_2.
Qed.

(** C8. [AddFinalStates] takes its labels in order. At the first label that
    is not in the state set it returns UnknownState for that label, and the
    labels before it stay inserted in the final-state set (nothing else of
    the object changes). When every label is in the state set, all of them
    are inserted and no error is returned. *)
Theorem AddFinalStates_partial_application sts f :
  (Forall (λ state, has (states f) state = true) sts →
     AddFinalStates sts f = (set_finalStates (insert_all sts (finalStates f)) f, None) ∧
     ∀ state, state ∈ sts → has (finalStates (AddFinalStates sts f).1) state = true) ∧
  (∀ pre bad post,
     sts = (pre ++ bad :: post)%list →
     Forall (λ state, has (states f) state = true) pre →
     has (states f) bad = false →
     AddFinalStates sts f =
       (set_finalStates (insert_all pre (finalStates f)) f, Some (ErrStateNotInSet bad)) ∧
     kind (ErrStateNotInSet bad) = UnknownState ∧
     ∀ state, state ∈ pre → has (finalStates (AddFinalStates sts f).1) state = true).
Proof.
  split.
  - intros Hall. rewrite AddFinalStates_all by done. split; [done|].
    intros state Hin. simpl. by apply insert_all_has.
  - intros pre bad post -> Hall Hbad. rewrite AddFinalStates_stops by done.
    split; [done|]. split; [done|].
    intros state Hin. simpl. by apply insert_all_has.
Qed.

(** The call of the package's test on states q0, q1, q2, with one unknown
    label after a known one: q0 is inserted, S1 is reported. *)
Lemma AddFinalStates_partial_application_witness :
  let f := AddStates ["q0"; "q1"; "q2"] NewFSM in
  AddFinalStates ["q0"; "S1"; "q1"] f =
    (set_finalStates (insert_all ["q0"] (finalStates f)) f, Some (ErrStateNotInSet "S1")) ∧
  has (finalStates (AddFinalStates ["q0"; "S1"; "q1"] f).1) "q0" = true.
Proof.
  intros f.
  destruct (AddFinalStates_partial_application ["q0"; "S1"; "q1"] f) as [_ Hstop].
  destruct (Hstop ["q0"] "S1" ["q1"]) as (Heq & _ & Hin).
  - reflexivity.
  - repeat constructor.
  - reflexivity.
  - split; [exact Heq|]. apply Hin. constructor.
Defined.

(** ** ProcessString *)

Lemma ProcessString_loop_ok symbols f f' :
  ProcessString_loop symbols f = (f', None) ↔ steps_ok symbols f f'.
Proof.
  revert f. induction symbols as [|symbol rest IH]; intros f; simpl.
  - split.
    + intros [= ->]. constructor.
    + inversion_clear 1. done.
  - split.
    + intros Hloop. destruct (step symbol f) as [f1 [err|]] eqn:Hstep; [done|].
      econstructor; [done|]. by apply IH.
    + inversion_clear 1 as [|? ? ? f1 ? Hstep Hrest]. rewrite Hstep. by apply IH.
Qed.

Lemma ProcessString_loop_error symbols f f' err :
  ProcessString_loop symbols f = (f', Some err) ↔
  ∃ pre symbol post,
    symbols = (pre ++ symbol :: post)%list ∧ steps_ok pre f f' ∧
    step symbol f' = (f', Some err).
Proof.
  revert f. induction symbols as [|symbol rest IH]; intros f; simpl.
  - split; [done|]. intros (pre & ? & ? & Heq & _). by destruct pre.
  - split.
    + intros Hloop. destruct (step symbol f) as [f1 [err1|]] eqn:Hstep.
      * injection Hloop as -> ->.
        pose proof (step_failure_unchanged _ _ _ _ Hstep) as ->.
        exists [], symbol, rest. split; [done|]. split; [constructor | done].
      * apply IH in Hloop as (pre & bad & post & -> & Hpre & Hbad).
        exists (symbol :: pre), bad, post. split; [done|].
        split; [by econstructor | done].
    + intros (pre & bad & post & Heq & Hpre & Hbad).
      destruct pre as [|symbol' pre]; simpl in Heq; injection Heq as -> ->.
      * inversion Hpre; subst. by rewrite Hbad.
      * inversion_clear Hpre as [|? ? ? f1 ? Hstep Hrest]. rewrite Hstep.
        apply IH. by exists pre, bad, post.
Qed.

(** C7. [ProcessString input] applies [step] to the symbols of [input] in
    order. It returns no error exactly when every step succeeds, and then the
    object is the one reached by these steps. It returns an error exactly
    when some symbol fails after all the symbols before it succeeded; the
    error is the one of that first failing step, and the object is the one
    reached by the successful steps before it (no rollback). A failing step
    leaves the object, hence [currentState], unchanged. *)
Theorem ProcessString_first_error input f :
  (∀ f', ProcessString input f = (f', None) ↔ steps_ok (symbols_of input) f f') ∧
  (∀ f' err,
     ProcessString input f = (f', Some err) ↔
     ∃ pre symbol post,
       symbols_of input = (pre ++ symbol :: post)%list ∧ steps_ok pre f f' ∧
       step symbol f' = (f', Some err)) ∧
  (∀ symbol g g' err, step symbol g = (g', Some err) → g' = g) ∧
  (ProcessString input f).1 =
    set_currentState (currentState (ProcessString input f).1) f.
Proof.
  unfold ProcessString. split; [|split; [|split]].
  - intros f'. apply ProcessString_loop_ok.
  - intros f' err. apply ProcessString_loop_error.
  - apply step_failure_unchanged.
  - apply ProcessString_loop_cursor_only.
Qed.

(** On the modulo-three automaton, 10x1 fails at x, with the cursor left on
    S2, the state reached after 1 and 0. *)
Lemma ProcessString_first_error_witness :
  let a := set_currentState "S0" main_fsm in
  let a' := set_currentState "S2" main_fsm in
  ∃ pre symbol post,
    symbols_of "10x1" = (pre ++ symbol :: post)%list ∧ steps_ok pre a a' ∧
    step symbol a' = (a', Some (ErrSymbolNotInAlphabet "x")).
Proof.
  intros a a'.
  apply (proj1 (proj1 (proj2 (ProcessString_first_error "10x1" a)) a'
                  (ErrSymbolNotInAlphabet "x"))).
  vm_compute. reflexivity.
Defined.

(** ** ProcessInput *)

(** C6. [ProcessInput input] first resets the cursor to the initial state, so
    its outcome does not depend on where the cursor was; then it runs
    [ProcessString input]. If that fails with [err] it returns [(false, err)];
    otherwise it returns [(IsFinalState(), nil)] for the state reached. *)
Theorem ProcessInput_composition input f :
  currentState (Reset f) = initialState f ∧
  (∀ s, ProcessInput input (set_currentState s f) = ProcessInput input f) ∧
  (∀ f' err, ProcessString input (Reset f) = (f', Some err) →
     ProcessInput input f = (f', (false, Some err))) ∧
  (∀ f', ProcessString input (Reset f) = (f', None) →
     ProcessInput input f = (f', (IsFinalState f', None)) ∧
     IsFinalState f' = has (finalStates f) (currentState f')).
Proof.
  split; [done|]. split; [done|]. unfold ProcessInput. split.
  - by intros f' err ->.
  - intros f' Hps. rewrite Hps. split; [done|].
    pose proof (ProcessString_loop_cursor_only (symbols_of input) (Reset f)) as Hc.
    unfold ProcessString in Hps. rewrite Hps in Hc. simpl in Hc.
    unfold IsFinalState. by rewrite Hc.
Qed.

Lemma ProcessInput_twice w s f :
  ProcessInput w (set_currentState s (ProcessInput w f).1) = ProcessInput w f.
Proof.
  rewrite ProcessInput_forgets_cursor.
  rewrite (ProcessInput_cursor_only w f) at 1.
  apply ProcessInput_forgets_cursor.
Qed.

(** C9. On an automaton returned by a successful [Build], two successive
    calls of [ProcessInput w] return the same pair (acceptance, error) and
    leave the same current state, wherever the cursor [s] was put between the
    two calls. *)
Theorem ProcessInput_deterministic o f0 a w s :
  Build o f0 = (a, None) →
  (ProcessInput w (set_currentState s (ProcessInput w a).1)).2 = (ProcessInput w a).2 ∧
  CurrentState (ProcessInput w (set_currentState s (ProcessInput w a).1)).1 =
    CurrentState (ProcessInput w a).1.
Proof. intros _. by rewrite ProcessInput_twice. Qed.

(** The automaton over a and b of the package's test: c is not in the
    alphabet, and acceptance is not evaluated. *)
Lemma ProcessInput_composition_witness :
  let f := (Build canonical_order
             (AddTransitions canonical_order
                [ {[ mkKey "q0" "a" := "q1" ]}; {[ mkKey "q0" "b" := "q0" ]};
                  {[ mkKey "q1" "a" := "q1" ]}; {[ mkKey "q1" "b" := "q0" ]} ]
                (AddFinalStates ["q1"]
                   (SetInitialState "q0"
                      (AddSymbols ["a"; "b"] (AddStates ["q0"; "q1"] NewFSM))).1).1).1).1 in
  ProcessInput "c" (set_currentState "q1" f) =
    (Reset f, (false, Some (ErrSymbolNotInAlphabet "c"))) ∧
  Error (ErrSymbolNotInAlphabet "c") = "symbol c not in alphabet".
Proof.
  intros f. split; [|reflexivity].
  destruct (ProcessInput_composition "c" (set_currentState "q1" f)) as (_ & _ & Herr & _).
  apply Herr. vm_compute. reflexivity.
Defined.

Lemma ProcessInput_deterministic_witness :
  let a := (Build canonical_order main_fsm).1 in
  (ProcessInput "1101" (set_currentState "S2" (ProcessInput "1101" a).1)).2 =
    (ProcessInput "1101" a).2 ∧
  CurrentState (ProcessInput "1101" (set_currentState "S2" (ProcessInput "1101" a).1)).1 =
    CurrentState (ProcessInput "1101" a).1.
Proof.
  intros a.
  apply (ProcessInput_deterministic canonical_order main_fsm a "1101" "S2").
  vm_compute. reflexivity.
Defined.

(** ** Build *)

Lemma range_states_elem o (m : gmap State bool) state :
  state ∈ range_states o m ↔ state ∈ dom m.
Proof.
  rewrite (range_states_perm o m), elem_of_dom, list_elem_of_fmap. split.
  - intros [[k v] [-> Hkv]]. apply elem_of_map_to_list in Hkv. by exists v.
  - intros [v Hv]. exists (state, v). split; [done|]. by apply elem_of_map_to_list.
Qed.

Lemma range_alphabet_elem o state (m : gmap Symbol bool) symbol :
  symbol ∈ range_alphabet o state m ↔ symbol ∈ dom m.
Proof.
  rewrite (range_alphabet_perm o state m), elem_of_dom, list_elem_of_fmap. split.
  - intros [[k v] [-> Hkv]]. apply elem_of_map_to_list in Hkv. by exists v.
  - intros [v Hv]. exists (symbol, v). split; [done|]. by apply elem_of_map_to_list.
Qed.

Lemma Build_symbols_None tr state symbols :
  Build_symbols tr state symbols = None ↔
  ∀ symbol, symbol ∈ symbols → is_Some (tr !! mkKey state symbol).
Proof.
  induction symbols as [|symbol rest IH]; simpl.
  - split; [|done]. intros _ ? Hin. by apply elem_of_nil in Hin.
  - destruct (tr !! mkKey state symbol) eqn:Hk.
    + rewrite IH. split.
      * intros Hrest symbol' [->|Hin]%elem_of_cons; [by rewrite Hk | by apply Hrest].
      * intros Hall symbol' Hin. apply Hall. by right.
    + split; [done|]. intros Hall.
      destruct (Hall symbol) as [? Hsome]; [by left | congruence].
Qed.

Lemma Build_symbols_Some tr state symbols err :
  Build_symbols tr state symbols = Some err →
  ∃ symbol, symbol ∈ symbols ∧ tr !! mkKey state symbol = None ∧
            err = ErrTransitionNotDefined state symbol.
Proof.
  induction symbols as [|symbol rest IH]; simpl; [done|].
  destruct (tr !! mkKey state symbol) eqn:Hk.
  - intros (symbol' & Hin & ?)%IH. exists symbol'. split; [by right | done].
  - intros [= <-]. exists symbol. split; [by left | done].
Qed.

Lemma Build_states_None o f sts :
  Build_states o f sts = None ↔
  ∀ state symbol, state ∈ sts → symbol ∈ dom (alphabet f) →
    is_Some (transitions f !! mkKey state symbol).
Proof.
  induction sts as [|state rest IH]; simpl.
  - split; [|done]. intros _ ? ? Hin. by apply elem_of_nil in Hin.
  - destruct (Build_symbols _ _ _) as [err|] eqn:Hsym.
    + split; [done|]. intros Hall.
      apply Build_symbols_Some in Hsym as (symbol & Hin & Hnone & _).
      apply range_alphabet_elem in Hin.
      destruct (Hall state symbol) as [? Hsome]; [by left | done | congruence].
    + rewrite IH. rewrite Build_symbols_None in Hsym. split.
      * intros Hrest state' symbol [->|Hin]%elem_of_cons Hsymbol.
        -- apply Hsym. by apply range_alphabet_elem.
        -- by apply Hrest.
      * intros Hall state' symbol Hin. apply Hall. by right.
Qed.

Lemma Build_states_Some o f sts err :
  Build_states o f sts = Some err →
  ∃ state symbol, state ∈ sts ∧ symbol ∈ dom (alphabet f) ∧
    transitions f !! mkKey state symbol = None ∧
    err = ErrTransitionNotDefined state symbol.
Proof.
  induction sts as [|state rest IH]; simpl; [done|].
  destruct (Build_symbols _ _ _) as [err'|] eqn:Hsym.
  - intros [= <-]. apply Build_symbols_Some in Hsym as (symbol & Hin & Hnone & ->).
    exists state, symbol. split; [by left|].
    split; [by apply range_alphabet_elem in Hin | done].
  - intros (state' & symbol & Hin & ?)%IH. exists state', symbol.
    split; [by right | done].
Qed.

Lemma Build_scan_None o f :
  Build_states o f (range_states o (states f)) = None ↔ total f.
Proof.
  rewrite Build_states_None. unfold total. split.
  - intros Hall state symbol Hstate. apply Hall. by apply range_states_elem.
  - intros Hall state symbol Hstate. apply Hall. by apply range_states_elem in Hstate.
Qed.

Lemma Build_scan_Some o f err :
  Build_states o f (range_states o (states f)) = Some err →
  ∃ state symbol, missing f state symbol ∧ err = ErrTransitionNotDefined state symbol.
Proof.
  intros (state & symbol & Hin & Hsym & Hnone & ->)%Build_states_Some.
  exists state, symbol. split; [|done]. split; [by apply range_states_elem in Hin | done].
Qed.

Lemma missing_not_total f state symbol : missing f state symbol → ¬ total f.
Proof.
  intros (Hstate & Hsymbol & Hnone) Htotal.
  destruct (Htotal state symbol Hstate Hsymbol) as [? Hsome]. congruence.
Qed.

(** Decide the emptiness tests of [Build] from the hypotheses at hand. *)
Ltac Build_checks :=
  repeat (rewrite bool_decide_eq_false_2 by done);
  try (rewrite bool_decide_eq_true_2 by done).

(** The five structural checks of [Build], in the order of the code. *)
Lemma Build_structural_checks o f :
  size (states f) ≠ 0 → size (alphabet f) ≠ 0 → initialState f ≠ "" →
  size (finalStates f) ≠ 0 → has (states f) (initialState f) = true →
  Build o f =
    match Build_states o f (range_states o (states f)) with
    | Some err => (f, Some err)
    | None => (set_currentState (initialState f) f, None)
    end.
Proof.
  intros H1 H2 H3 H4 H5. unfold Build. Build_checks. by rewrite H5.
Qed.

(** A [Build] that returns no error has passed the six checks. *)
Lemma Build_None_checks o f :
  (Build o f).2 = None →
  size (states f) ≠ 0 ∧ size (alphabet f) ≠ 0 ∧ initialState f ≠ "" ∧
  size (finalStates f) ≠ 0 ∧ has (states f) (initialState f) = true ∧ total f.
Proof.
  unfold Build. repeat case_bool_decide; try done.
  destruct (has (states f) (initialState f)) eqn:H5; [|done]. simpl.
  destruct (Build_states _ _ _) as [err|] eqn:Hscan; [done|].
  apply Build_scan_None in Hscan. done.
Qed.

(** C4. [Build] validates in a fixed order and returns the first violation:
    (1) no state: EmptyStates; (2) no symbol: EmptyAlphabet; (3) the initial
    state is the empty label, that is, was never set: MissingInitialState;
    (4) no final state: EmptyFinalStates; (5) the initial state is not in the
    state set: InitialStateNotInStates; (6) some pair (state, symbol) has no
    transition: MissingTransition for such a pair, whose message reads
    "transition δ(q0, 1) is not defined" for the pair (q0, 1). A failing
    [Build] leaves the object as it was. [Build] succeeds exactly when the
    six checks pass, and then it puts the cursor on the initial state and
    returns the automaton. *)
Theorem Build_validation_order o f :
  (size (states f) = 0 → Build o f = (f, Some ErrNoStates)) ∧
  (size (states f) ≠ 0 → size (alphabet f) = 0 → Build o f = (f, Some ErrNoAlphabet)) ∧
  (size (states f) ≠ 0 → size (alphabet f) ≠ 0 → initialState f = "" →
     Build o f = (f, Some ErrNoInitialState)) ∧
  (size (states f) ≠ 0 → size (alphabet f) ≠ 0 → initialState f ≠ "" →
   size (finalStates f) = 0 →
     Build o f = (f, Some ErrNoFinalStates)) ∧
  (size (states f) ≠ 0 → size (alphabet f) ≠ 0 → initialState f ≠ "" →
   size (finalStates f) ≠ 0 → has (states f) (initialState f) = false →
     Build o f = (f, Some ErrInitialStateNotInStates)) ∧
  (size (states f) ≠ 0 → size (alphabet f) ≠ 0 → initialState f ≠ "" →
   size (finalStates f) ≠ 0 → has (states f) (initialState f) = true →
   ¬ total f →
     ∃ state symbol, missing f state symbol ∧
       Build o f = (f, Some (ErrTransitionNotDefined state symbol))) ∧
  (size (states f) ≠ 0 → size (alphabet f) ≠ 0 → initialState f ≠ "" →
   size (finalStates f) ≠ 0 → has (states f) (initialState f) = true →
   total f →
     Build o f = (set_currentState (initialState f) f, None)) ∧
  ((Build o f).2 = None →
     size (states f) ≠ 0 ∧ size (alphabet f) ≠ 0 ∧ initialState f ≠ "" ∧
     size (finalStates f) ≠ 0 ∧ has (states f) (initialState f) = true ∧ total f) ∧
  (kind ErrNoStates = EmptyStates ∧ kind ErrNoAlphabet = EmptyAlphabet ∧
   kind ErrNoInitialState = MissingInitialState ∧
   kind ErrNoFinalStates = EmptyFinalStates ∧
   kind ErrInitialStateNotInStates = InitialStateNotInStates ∧
   ∀ state symbol, kind (ErrTransitionNotDefined state symbol) = MissingTransition) ∧
  Error (ErrTransitionNotDefined "q0" "1") = "transition δ(q0, 1) is not defined".
Proof.
  repeat apply conj; try done.
  - intros H1. unfold Build. by rewrite bool_decide_eq_true_2.
  - intros H1 H2. unfold Build. by Build_checks.
  - intros H1 H2 H3. unfold Build. by Build_checks.
  - intros H1 H2 H3 H4. unfold Build. by Build_checks.
  - intros H1 H2 H3 H4 H5. unfold Build. Build_checks. by rewrite H5.
  - intros H1 H2 H3 H4 H5 Hnt. rewrite Build_structural_checks by done.
    destruct (Build_states _ _ _) as [err|] eqn:Hscan.
    + apply Build_scan_Some in Hscan as (state & symbol & Hmiss & ->). eauto.
    + by apply Build_scan_None in Hscan.
  - intros H1 H2 H3 H4 H5 Ht. rewrite Build_structural_checks by done.
    by apply (Build_scan_None o) in Ht as ->.
  - apply Build_None_checks.
Qed.

(** The failing [Build] of the package's test: q0 has a transition on 0 and
    none on 1. *)
Lemma Build_validation_order_witness :
  let f := (AddTransition "q0" "0" "q0"
              (AddFinalStates ["q0"]
                 (SetInitialState "q0"
                    (AddSymbols ["0"; "1"] (AddStates ["q0"] NewFSM))).1).1).1 in
  ∃ state symbol, missing f state symbol ∧
    Build canonical_order f = (f, Some (ErrTransitionNotDefined state symbol)).
Proof.
  intros f.
  destruct (Build_validation_order canonical_order f)
    as (_ & _ & _ & _ & _ & Hscan & _).
  apply Hscan.
  - vm_compute. discriminate.
  - vm_compute. discriminate.
  - vm_compute. discriminate.
  - vm_compute. discriminate.
  - vm_compute. reflexivity.
  - apply (missing_not_total f "q0" "1"). split; [|split].
    + apply has_true_dom. vm_compute. reflexivity.
    + apply has_true_dom. vm_compute. reflexivity.
    + vm_compute. reflexivity.
Defined.

Lemma has_true_size `{Countable K} (m : gmap K bool) k : has m k = true → size m ≠ 0.
Proof.
  rewrite has_true. intros Hk Hsize. apply map_size_empty_iff in Hsize. subst.
  by rewrite lookup_empty in Hk.
Qed.

Lemma Build_success_initial o f a : Build o f = (a, None) → initialState a ≠ "".
Proof.
  unfold Build. repeat case_bool_decide; try done.
  destruct (negb _); [done|]. destruct (Build_states _ _ _); [done|].
  by intros [= <-].
Qed.

(** C10 (as amended). On a builder whose state set contains the empty label
    and whose alphabet is not empty, [SetInitialState("")] succeeds, and
    [Build] then fails with MissingInitialState, "FSM must have an initial
    state": the empty label is what [Build] takes for an initial state that
    was never set. The same holds for any such builder whose initial state is
    the empty label. No successful [Build] returns an automaton whose initial
    state is the empty label. *)
Theorem Build_empty_initial_label o f :
  has (states f) "" = true → size (alphabet f) ≠ 0 →
  SetInitialState "" f = (set_initialState "" f, None) ∧
  Build o (set_initialState "" f) = (set_initialState "" f, Some ErrNoInitialState) ∧
  (initialState f = "" → Build o f = (f, Some ErrNoInitialState)) ∧
  kind ErrNoInitialState = MissingInitialState ∧
  Error ErrNoInitialState = "FSM must have an initial state" ∧
  (∀ g a, Build o g = (a, None) → initialState a ≠ "").
Proof.
  intros Hstate Halpha. pose proof (has_true_size _ _ Hstate) as Hsize.
  repeat apply conj; try done.
  - unfold SetInitialState. by rewrite Hstate.
  - unfold Build; simpl. by Build_checks.
  - intros Hinit. unfold Build. by Build_checks.
  - intros g a. apply Build_success_initial.
Qed.

Lemma Build_empty_initial_label_witness :
  let f := AddSymbols ["0"] (AddStates [""; "q0"] NewFSM) in
  SetInitialState "" f = (set_initialState "" f, None) ∧
  Build canonical_order (set_initialState "" f) =
    (set_initialState "" f, Some ErrNoInitialState).
Proof.
  intros f.
  destruct (Build_empty_initial_label canonical_order f) as (Hset & Hbuild & _).
  - vm_compute. reflexivity.
  - vm_compute. discriminate.
  - split; [exact Hset | exact Hbuild].
Defined.

(** With an empty alphabet the same builder fails earlier in [Build], on the
    alphabet check, and the error is not MissingInitialState. *)
Lemma Build_empty_initial_label_counterexample :
  ¬ (∀ o f, has (states f) "" = true → (SetInitialState "" f).2 = None →
       (Build o (SetInitialState "" f).1).2 = Some ErrNoInitialState).
Proof.
  intros Hclaim.
  specialize (Hclaim canonical_order (AddStates [""] NewFSM) eq_refl eq_refl).
  vm_compute in Hclaim. discriminate.
Qed.

(** ** What the mutators of the Builder do to the structural fields *)

Lemma AddStates_eq sts f : AddStates sts f = set_states (insert_all sts (states f)) f.
Proof.
  unfold AddStates, insert_all. revert f.
  induction sts as [|state rest IH]; intros f; simpl; [by destruct f|].
  by rewrite IH.
Qed.

Lemma AddSymbols_eq symbols f :
  AddSymbols symbols f = set_alphabet (insert_all symbols (alphabet f)) f.
Proof.
  unfold AddSymbols, insert_all. revert f.
  induction symbols as [|symbol rest IH]; intros f; simpl; [by destruct f|].
  by rewrite IH.
Qed.

Lemma SetInitialState_eq state f :
  (SetInitialState state f).1 = f ∨
  (SetInitialState state f).1 = set_initialState state f.
Proof. unfold SetInitialState. destruct (negb _); auto. Qed.

Lemma AddFinalStates_eq sts f :
  ∃ pre, (AddFinalStates sts f).1 = set_finalStates (insert_all pre (finalStates f)) f.
Proof.
  revert f. induction sts as [|state rest IH]; intros f; simpl.
  - exists []. by destruct f.
  - destruct (negb _).
    + exists []. by destruct f.
    + destruct (IH (set_finalStates (<[state:=true]> (finalStates f)) f)) as [pre Hpre].
      exists (state :: pre). by rewrite Hpre.
Qed.

(** The mutators never remove a member of a set and never remove or change
    a transition. *)
Lemma extends_refl f : extends f f.
Proof. split; [apply grows_refl .. | reflexivity]. Qed.

Lemma extends_trans f1 f2 f3 : extends f1 f2 → extends f2 f3 → extends f1 f3.
Proof.
  intros [] []. split; try (by eapply grows_trans). by etrans.
Qed.

Ltac extends_fields := split; simpl; try apply grows_refl; try reflexivity.

Lemma AddTransition_extends state symbol nextState f :
  extends f (AddTransition state symbol nextState f).1.
Proof.
  unfold AddTransition. repeat (destruct (negb _); [apply extends_refl|]).
  destruct (transitions f !! _) eqn:Hk; [apply extends_refl|].
  extends_fields. by apply insert_subseteq.
Qed.

Lemma AddTransition_targets state symbol nextState f :
  targets_in_states f → targets_in_states (AddTransition state symbol nextState f).1.
Proof.
  unfold AddTransition. intros Hinv.
  destruct (has (states f) state); [|done].
  destruct (has (states f) nextState) eqn:Hnext; [|done].
  destruct (has (alphabet f) symbol); [|done]. simpl.
  destruct (transitions f !! _) eqn:Hk; [done|].
  intros key target. simpl. rewrite lookup_insert. case_decide.
  - by intros [= <-].
  - apply Hinv.
Qed.

Lemma AddTransitions_entries_extends entries f :
  extends f (AddTransitions_entries entries f).1.
Proof.
  revert f. induction entries as [|[key nextState] rest IH]; intros f; simpl.
  - apply extends_refl.
  - pose proof (AddTransition_extends (key_State key) (key_Symbol key) nextState f) as He.
    destruct (AddTransition _ _ _ f) as [f1 [err|]]; [done|].
    eapply extends_trans; [exact He | apply IH].
Qed.

Lemma AddTransitions_entries_targets entries f :
  targets_in_states f → targets_in_states (AddTransitions_entries entries f).1.
Proof.
  revert f. induction entries as [|[key nextState] rest IH]; intros f Hinv; simpl.
  - done.
  - pose proof (AddTransition_targets (key_State key) (key_Symbol key) nextState f Hinv) as Ht.
    destruct (AddTransition _ _ _ f) as [f1 [err|]]; [done|]. by apply IH.
Qed.

Lemma AddTransitions_from_extends o i batch f :
  extends f (AddTransitions_from o i batch f).1.
Proof.
  revert i f. induction batch as [|transition rest IH]; intros i f; simpl.
  - apply extends_refl.
  - pose proof (AddTransitions_entries_extends (range_transition o i transition) f) as He.
    destruct (AddTransitions_entries _ f) as [f1 [err|]]; [done|].
    eapply extends_trans; [exact He | apply IH].
Qed.

Lemma AddTransitions_from_targets o i batch f :
  targets_in_states f → targets_in_states (AddTransitions_from o i batch f).1.
Proof.
  revert i f. induction batch as [|transition rest IH]; intros i f Hinv; simpl.
  - done.
  - pose proof (AddTransitions_entries_targets (range_transition o i transition) f Hinv) as Ht.
    destruct (AddTransitions_entries _ f) as [f1 [err|]]; [done|]. by apply IH.
Qed.

Lemma call_builder_extends c f : extends f (call_builder c f).1.
Proof.
  destruct c as [sts|symbols|state|sts|state symbol nextState|o batch]; simpl.
  - rewrite AddStates_eq. extends_fields. apply insert_all_grows.
  - rewrite AddSymbols_eq. extends_fields. apply insert_all_grows.
  - destruct (SetInitialState_eq state f) as [-> | ->]; extends_fields.
  - destruct (AddFinalStates_eq sts f) as [pre ->]. extends_fields.
    apply insert_all_grows.
  - apply AddTransition_extends.
  - apply AddTransitions_from_extends.
Qed.

Lemma targets_in_states_grows f f' :
  grows (states f) (states f') → transitions f' = transitions f →
  targets_in_states f → targets_in_states f'.
Proof. intros Hg Ht Hinv key target. rewrite Ht. intros Hk. apply Hg. eauto. Qed.

Lemma targets_in_states_fields f f' :
  states f' = states f → transitions f' = transitions f →
  targets_in_states f → targets_in_states f'.
Proof. intros Hs Ht Hinv key target. rewrite Hs, Ht. apply Hinv. Qed.

Lemma call_builder_targets c f :
  targets_in_states f → targets_in_states (call_builder c f).1.
Proof.
  destruct c as [sts|symbols|state|sts|state symbol nextState|o batch]; simpl.
  - rewrite AddStates_eq. apply targets_in_states_grows; [|done]. apply insert_all_grows.
  - rewrite AddSymbols_eq. by apply targets_in_states_fields.
  - destruct (SetInitialState_eq state f) as [-> | ->]; [done|].
    by apply targets_in_states_fields.
  - destruct (AddFinalStates_eq sts f) as [pre ->]. by apply targets_in_states_fields.
  - apply AddTransition_targets.
  - apply AddTransitions_from_targets.
Qed.

Lemma Build_cursor_only o f :
  (Build o f).1 = set_currentState (currentState (Build o f).1) f.
Proof.
  unfold Build. repeat case_bool_decide; simpl; try by rewrite set_currentState_id.
  destruct (negb _); simpl; [by rewrite set_currentState_id|].
  destruct (Build_states _ _ _); simpl; [by rewrite set_currentState_id | done].
Qed.

Lemma call_targets c f : targets_in_states f → targets_in_states (call c f).
Proof.
  destruct c as [c|o| |symbol|input|input]; simpl.
  - apply call_builder_targets.
  - rewrite Build_cursor_only. by apply targets_in_states_fields.
  - by apply targets_in_states_fields.
  - rewrite step_cursor_only. by apply targets_in_states_fields.
  - unfold ProcessString. rewrite ProcessString_loop_cursor_only.
    by apply targets_in_states_fields.
  - rewrite ProcessInput_cursor_only. by apply targets_in_states_fields.
Qed.

Lemma run_targets calls f : targets_in_states f → targets_in_states (run calls f).
Proof.
  unfold run. revert f. induction calls as [|c rest IH]; intros f Hinv; simpl; [done|].
  apply IH. by apply call_targets.
Qed.

Lemma NewFSM_targets : targets_in_states NewFSM.
Proof. intros key target. simpl. by rewrite lookup_empty. Qed.

(** ** Totality of the automaton that [Build] returns *)

Lemma Build_success o f a :
  Build o f = (a, None) →
  a = set_currentState (initialState f) f ∧ total f ∧
  has (states f) (initialState f) = true.
Proof.
  intros Hb. pose proof (Build_None_checks o f) as Hok.
  rewrite Hb in Hok. destruct (Hok eq_refl) as (H1 & H2 & H3 & H4 & H5 & Ht).
  split; [|done]. rewrite Build_structural_checks in Hb by done.
  apply (Build_scan_None o) in Ht. rewrite Ht in Hb. congruence.
Qed.

Lemma step_defined symbol s f :
  total f → targets_in_states f →
  has (states f) s = true → has (alphabet f) symbol = true →
  ∃ nextState,
    step symbol (set_currentState s f) = (set_currentState nextState f, None) ∧
    has (states f) nextState = true.
Proof.
  intros Ht Hinv Hs Ha. unfold step; simpl. rewrite Ha; simpl.
  destruct (Ht s symbol) as [nextState Hk]; [by apply has_true_dom..|].
  rewrite Hk. exists nextState. split; [done|]. by eapply Hinv.
Qed.

Lemma step_error_kind symbol s f g err :
  total f → has (states f) s = true →
  step symbol (set_currentState s f) = (g, Some err) →
  err = ErrSymbolNotInAlphabet symbol.
Proof.
  intros Ht Hs. unfold step; simpl.
  destruct (has (alphabet f) symbol) eqn:Ha; simpl; [|congruence].
  destruct (Ht s symbol) as [nextState Hk]; [by apply has_true_dom..|].
  by rewrite Hk.
Qed.

Lemma ProcessString_loop_closed symbols s f :
  total f → targets_in_states f → has (states f) s = true →
  ∃ s', (ProcessString_loop symbols (set_currentState s f)).1 = set_currentState s' f ∧
        has (states f) s' = true ∧
        ∀ err, (ProcessString_loop symbols (set_currentState s f)).2 = Some err →
               kind err = UnknownSymbol.
Proof.
  intros Ht Hinv. revert s.
  induction symbols as [|symbol rest IH]; intros s Hs; cbn [ProcessString_loop].
  - by exists s.
  - destruct (has (alphabet f) symbol) eqn:Ha.
    + destruct (step_defined symbol s f Ht Hinv Hs Ha) as (nextState & -> & Hnext).
      by apply IH.
    + unfold step. cbn [alphabet set_currentState]. rewrite Ha. simpl.
      exists s. split; [done|]. split; [done|]. by intros err [= <-].
Qed.

(** The automaton at the moment [Build] returns it. Let [a] be the object a
    successful [Build] returns, on a builder that was made by [NewBuilder]
    and used through the methods of the package. For every state [s] of its state set and every symbol of its
    alphabet, [step] from [s] returns no error and moves the cursor to a
    member of the state set. From such a state, [step] never returns
    TransitionUndefined: on any symbol it either succeeds or reports that the
    symbol is not in the alphabet. The cursor starts on the initial state,
    a member of the state set, and [ProcessString] keeps it in the state set
    and fails with UnknownSymbol only: the TransitionUndefined branch is not
    reached. *)
Lemma step_total_after_Build calls o a s symbol :
  Build o (run calls NewFSM) = (a, None) →
  has (states a) s = true → has (alphabet a) symbol = true →
  (∃ nextState,
     step symbol (set_currentState s a) = (set_currentState nextState a, None) ∧
     has (states a) nextState = true) ∧
  (∀ symbol' g err,
     step symbol' (set_currentState s a) = (g, Some err) →
     err = ErrSymbolNotInAlphabet symbol' ∧ kind err ≠ TransitionUndefined) ∧
  (currentState a = initialState a ∧ has (states a) (initialState a) = true) ∧
  (∀ input, ∃ s',
     (ProcessString input (set_currentState s a)).1 = set_currentState s' a ∧
     has (states a) s' = true ∧
     ∀ err, (ProcessString input (set_currentState s a)).2 = Some err →
            kind err = UnknownSymbol).
Proof.
  intros (-> & Ht & Hinit)%Build_success Hs Ha. simpl in Hs, Ha.
  pose proof (run_targets calls NewFSM NewFSM_targets) as Hinv.
  set (f := run calls NewFSM) in *.
  rewrite !set_currentState_twice. split; [|split; [|split]].
  - destruct (step_defined symbol s f Ht Hinv Hs Ha) as (nextState & Hstep & Hnext).
    exists nextState. by rewrite Hstep.
  - intros symbol' g err Hstep.
    by rewrite (step_error_kind symbol' s f g err Ht Hs Hstep).
  - done.
  - intros input. unfold ProcessString.
    destruct (ProcessString_loop_closed (symbols_of input) s f Ht Hinv Hs)
      as (s' & Heq & Hs' & Herr).
    exists s'. rewrite Heq. done.
Qed.

(** The modulo-three automaton of [main], on symbol 1 from state S1. *)
Lemma step_total_after_Build_witness :
  let a := (Build canonical_order
              (run (CallBuilder <$> main_calls canonical_order) NewFSM)).1 in
  ∃ nextState,
    step "1" (set_currentState "S1" a) = (set_currentState nextState a, None) ∧
    has (states a) nextState = true.
Proof.
  intros a.
  refine (proj1 (step_total_after_Build
                   (CallBuilder <$> main_calls canonical_order)
                   canonical_order a "S1" "1" _ _ _)).
  - vm_compute. reflexivity.
  - vm_compute. reflexivity.
  - vm_compute. reflexivity.
Defined.

(** ** The modulo-three automaton *)

Lemma range_transition_singleton o i key nextState :
  range_transition o i {[ key := nextState ]} = [(key, nextState)].
Proof.
  apply Permutation_singleton_r.
  by rewrite range_transition_perm, map_to_list_singleton.
Qed.

Lemma main_transitions_order o f :
  AddTransitions o main_transitions f = AddTransitions canonical_order main_transitions f.
Proof.
  unfold AddTransitions, main_transitions.
  cbn [AddTransitions_from]. by rewrite !range_transition_singleton.
Qed.

Lemma main_builder_order o : main_builder o = Some main_fsm.
Proof.
  transitivity (main_builder canonical_order).
  - unfold main_builder.
    destruct (SetInitialState _ _) as [f1 [err|]]; [done|].
    destruct (AddFinalStates _ f1) as [f2 [err|]]; [done|].
    by rewrite main_transitions_order.
  - vm_compute. reflexivity.
Qed.

Lemma main_fsm_total : total main_fsm.
Proof. apply (Build_scan_None canonical_order). vm_compute. reflexivity. Qed.

Lemma main_fsm_initialState : initialState main_fsm = "S0".
Proof. vm_compute. reflexivity. Qed.

Lemma main_fsm_Build o : Build o main_fsm = (set_currentState "S0" main_fsm, None).
Proof.
  rewrite Build_structural_checks.
  - rewrite (proj2 (Build_scan_None o main_fsm) main_fsm_total).
    by rewrite main_fsm_initialState.
  - vm_compute. discriminate.
  - vm_compute. discriminate.
  - vm_compute. discriminate.
  - vm_compute. discriminate.
  - vm_compute. reflexivity.
Qed.

Lemma moduloThreeAutomaton_eq o :
  moduloThreeAutomaton o = Some (set_currentState "S0" main_fsm).
Proof.
  unfold moduloThreeAutomaton. by rewrite main_builder_order, main_fsm_Build.
Qed.

Lemma symbols_of_digit c w :
  is_digit c = true → symbols_of (String c w) = String c EmptyString :: symbols_of w.
Proof.
  unfold is_digit. intros [Hc|Hc]%orb_true_iff; apply bool_decide_eq_true in Hc;
    subst; reflexivity.
Qed.

Lemma residue_cases (k : N) : (k < 3)%N → k = 0%N ∨ k = 1%N ∨ k = 2%N.
Proof. lia. Qed.

Lemma main_fsm_step k c :
  (k < 3)%N → is_digit c = true →
  step (String c EmptyString) (set_currentState (residue_state k) main_fsm) =
    (set_currentState (residue_state ((2 * k + digit_value c) mod 3)) main_fsm, None).
Proof.
  intros Hk Hc. unfold is_digit in Hc.
  apply orb_true_iff in Hc as [Hc|Hc]; apply bool_decide_eq_true in Hc; subst c;
    destruct (residue_cases k Hk) as [-> | [-> | ->]]; vm_compute; reflexivity.
Qed.

Lemma residue_shift (acc d : N) :
  ((2 * (acc mod 3) + d) mod 3 = (2 * acc + d) mod 3)%N.
Proof.
  rewrite (N.Div0.add_mod (2 * (acc mod 3))), (N.Div0.add_mod (2 * acc)).
  by rewrite N.Div0.mul_mod_idemp_r.
Qed.

Lemma main_fsm_loop w acc :
  is_binary w = true →
  ProcessString_loop (symbols_of w) (set_currentState (residue_state (acc mod 3)) main_fsm) =
    (set_currentState (residue_state (binary_value_from acc w mod 3)) main_fsm, None).
Proof.
  revert acc. induction w as [|c w IH]; intros acc Hw; simpl in Hw.
  - done.
  - apply andb_true_iff in Hw as [Hc Hw].
    rewrite symbols_of_digit by done. cbn [ProcessString_loop].
    rewrite main_fsm_step by (done || by apply N.mod_lt).
    rewrite residue_shift. apply (IH _ Hw).
Qed.

Lemma residue_state_final k : has (finalStates main_fsm) (residue_state k) = true.
Proof. destruct k as [|[[]|[]|]]; vm_compute; reflexivity. Qed.

Lemma main_residue_state k : (k < 3)%N → main_residue (residue_state k) = Some k.
Proof. intros Hk. by destruct (residue_cases k Hk) as [-> | [-> | ->]]. Qed.

(** C3. On the modulo-three automaton that [main] builds, for every string
    [w] of binary digits denoting the number [n], [ProcessInput w] succeeds
    and accepts, and the current state afterwards is the one that stands for
    [n mod 3], wherever the cursor was before. In particular 110 ends in S0,
    1101 in S1 and 1011 in S2. *)
Theorem moduloThree_residue o a w s :
  moduloThreeAutomaton o = Some a → is_binary w = true →
  (ProcessInput w (set_currentState s a)).2 = (true, None) ∧
  main_residue (CurrentState (ProcessInput w (set_currentState s a)).1) =
    Some (binary_value w mod 3)%N ∧
  CurrentState (ProcessInput "110" a).1 = "S0" ∧
  CurrentState (ProcessInput "1101" a).1 = "S1" ∧
  CurrentState (ProcessInput "1011" a).1 = "S2".
Proof.
  rewrite moduloThreeAutomaton_eq. intros [= <-] Hw.
  assert (ProcessInput w (set_currentState s (set_currentState "S0" main_fsm)) =
          (set_currentState (residue_state (binary_value w mod 3)) main_fsm,
           (true, None))) as ->.
  { unfold ProcessInput, ProcessString.
    change (Reset _) with (set_currentState (residue_state (0 mod 3)) main_fsm).
    rewrite main_fsm_loop by done. unfold IsFinalState; simpl.
    by rewrite residue_state_final. }
  split; [done|]. split.
  - simpl. unfold CurrentState; simpl. apply main_residue_state. by apply N.mod_lt.
  - vm_compute. done.
Qed.

Lemma moduloThree_residue_witness :
  let a := (Build canonical_order main_fsm).1 in
  (ProcessInput "1101" (set_currentState "S2" a)).2 = (true, None) ∧
  main_residue (CurrentState (ProcessInput "1101" (set_currentState "S2" a)).1) =
    Some (binary_value "1101" mod 3)%N.
Proof.
  intros a.
  destruct (moduloThree_residue canonical_order a "1101" "S2") as (Hr & Hs & _).
  - vm_compute. reflexivity.
  - vm_compute. reflexivity.
  - split; [exact Hr | exact Hs].
Defined.

(** ** The automaton that [Build] returns is the Builder's own object *)

Lemma at_ptr_Some {A} p (m : FSM → FSM * A) (h h' : gmap ptr FSM) r :
  at_ptr p m h = Some (r, h') ↔
  ∃ f, h !! p = Some f ∧ r = (m f).2 ∧ h' = <[p := (m f).1]> h.
Proof.
  unfold at_ptr. destruct (h !! p) as [f|].
  - destruct (m f) as [f' r'] eqn:Hm; simpl. split.
    + intros [= <- <-]. by exists f; rewrite Hm.
    + intros (g & [= <-] & -> & ->). by rewrite Hm.
  - split; [done|]. by intros (g & ? & _).
Qed.

Lemma Builder_call_Some b c (h : gmap ptr FSM) f :
  h !! fsm b = Some f →
  Builder_call b c h =
    Some ((b, (call_builder c f).2), <[fsm b := (call_builder c f).1]> h).
Proof.
  intros Hf. unfold Builder_call, at_ptr. rewrite Hf.
  by destruct (call_builder c f).
Qed.

Lemma Builder_calls_Some b calls (h : gmap ptr FSM) f :
  h !! fsm b = Some f →
  ∃ h', Builder_calls b calls h = Some h' ∧
        h' !! fsm b = Some (run (CallBuilder <$> calls) f).
Proof.
  revert h f. induction calls as [|c rest IH]; intros h f Hf; simpl.
  - by exists h.
  - rewrite (Builder_call_Some b c h f Hf).
    apply IH. by rewrite lookup_insert_eq.
Qed.

Lemma run_builder_extends calls f : extends f (run (CallBuilder <$> calls) f).
Proof.
  unfold run. revert f. induction calls as [|c rest IH]; intros f; simpl.
  - apply extends_refl.
  - eapply extends_trans; [apply call_builder_extends | apply IH].
Qed.

Lemma Builder_Build_Some o b (h h1 : gmap ptr FSM) p :
  Builder_Build o b h = Some ((Some p, None), h1) →
  p = fsm b ∧ ∃ f a, h !! fsm b = Some f ∧ Build o f = (a, None) ∧
                     h1 = <[fsm b := a]> h.
Proof.
  unfold Builder_Build. intros (f & Hf & Hr & ->)%at_ptr_Some.
  destruct (Build o f) as [a [err|]] eqn:Hb; simpl in Hr; [done|].
  injection Hr as ->. split; [done|]. by exists f, a.
Qed.

(** C1 (as amended). A successful [Build] returns the pointer the Builder
    itself holds: the automaton and the Builder share one object. Every
    sequence of later mutator calls on the same Builder (AddStates,
    AddSymbols, SetInitialState, AddFinalStates, AddTransition,
    AddTransitions) runs to its end and acts on that object, so the automaton
    sees its effect; the calls never remove a member of the states, the
    alphabet or the final states, and never remove or retarget a transition,
    but they can add to all four. *)
Theorem Build_shares_object o b (h h1 : gmap ptr FSM) p :
  Builder_Build o b h = Some ((Some p, None), h1) →
  p = fsm b ∧
  ∃ a, h1 !! p = Some a ∧
    ∀ calls, ∃ h2,
      Builder_calls b calls h1 = Some h2 ∧
      h2 !! p = Some (run (CallBuilder <$> calls) a) ∧
      extends a (run (CallBuilder <$> calls) a).
Proof.
  intros (-> & f & a & Hf & Hb & ->)%Builder_Build_Some. split; [done|].
  exists a. split; [by rewrite lookup_insert_eq|].
  intros calls.
  destruct (Builder_calls_Some b calls (<[fsm b := a]> h) a) as (h2 & Hcalls & Hh2);
    [by rewrite lookup_insert_eq|].
  exists h2. split; [done|]. split; [done|]. apply run_builder_extends.
Qed.

(** The builder of [main], after its [Build]. *)
Lemma Build_shares_object_witness :
  let b := (NewBuilder ∅).1 in
  let h := default ∅ (Builder_calls b (main_calls canonical_order) (NewBuilder ∅).2) in
  let h1 := <[fsm b := set_currentState "S0" main_fsm]> h in
  ∃ a, h1 !! fsm b = Some a ∧
    ∀ calls, ∃ h2,
      Builder_calls b calls h1 = Some h2 ∧
      h2 !! fsm b = Some (run (CallBuilder <$> calls) a) ∧
      extends a (run (CallBuilder <$> calls) a).
Proof.
  intros b h h1.
  refine (proj2 (Build_shares_object canonical_order b h h1 (fsm b) _)).
  vm_compute. reflexivity.
Defined.

(** After main's [Build], one more [AddStates] on the builder adds the state
    S3 to the automaton that [Build] returned. *)
Lemma Build_shares_object_counterexample :
  ¬ (∀ o b (h h1 h2 : gmap ptr FSM) p calls,
       Builder_Build o b h = Some ((Some p, None), h1) →
       Builder_calls b calls h1 = Some h2 →
       structure <$> h2 !! p = structure <$> h1 !! p).
Proof.
  intros Hfrozen.
  pose (b := (NewBuilder ∅).1).
  pose (h := default ∅ (Builder_calls b (main_calls canonical_order) (NewBuilder ∅).2)).
  pose (h1 := <[fsm b := set_currentState "S0" main_fsm]> h).
  pose (h2 := <[fsm b := AddStates ["S3"] (set_currentState "S0" main_fsm)]> h).
  assert (structure <$> h2 !! fsm b = structure <$> h1 !! fsm b) as Heq.
  { apply (Hfrozen canonical_order b h h1 h2 (fsm b) [CallAddStates ["S3"]]);
      vm_compute; reflexivity. }
  apply (f_equal (fmap (λ x, has x.1.1.1 "S3"))) in Heq.
  vm_compute in Heq. discriminate.
Qed.

(** What the sharing means for the executor: after main's [Build], the calls
    [AddStates("S3")] and [SetInitialState("S3")] on the builder make
    [ProcessInput("1")] on the automaton fail in [step], for want of a
    transition from S3. *)
Example mutation_after_Build :
  let '(b, h) := NewBuilder ∅ in
  (h ← Builder_calls b (main_calls canonical_order) h;
   '(r, h) ← Builder_Build canonical_order b h;
   h ← Builder_calls b [CallAddStates ["S3"]; CallSetInitialState "S3"] h;
   '(r', _) ← FSM_ProcessInput (fsm b) "1" h;
   Some (r, r')) =
  Some ((Some (fsm b), None), (false, Some (ErrNoTransition "S3" "1"))).
Proof. vm_compute. reflexivity. Qed.

(** * Further properties of the package *)

(** ** AddStates and AddSymbols: sets of labels *)

Lemma insert_all_lookup sts (m : gmap State bool) k :
  insert_all sts m !! k = if decide (k ∈ sts) then Some true else m !! k.
Proof.
  unfold insert_all. revert m. induction sts as [|state rest IH]; intros m; simpl.
  - destruct (decide (k ∈ [])) as [Hin|Hin]; [by apply elem_of_nil in Hin | done].
  - rewrite IH. destruct (decide (k ∈ rest)) as [Hrest|Hrest].
    + rewrite decide_True; [done | by right].
    + rewrite lookup_insert. destruct (decide (state = k)) as [->|Hne].
      * rewrite decide_True; [done | by left].
      * rewrite decide_False; [done|]. by intros [->|?]%elem_of_cons.
Qed.

Lemma insert_all_has_iff sts (m : gmap State bool) k :
  has (insert_all sts m) k = true ↔ k ∈ sts ∨ has m k = true.
Proof.
  unfold has. rewrite insert_all_lookup.
  destruct (decide (k ∈ sts)) as [Hin|Hin]; simpl; tauto.
Qed.

Lemma insert_all_perm sts sts' (m : gmap State bool) :
  (∀ k, k ∈ sts ↔ k ∈ sts') → insert_all sts m = insert_all sts' m.
Proof.
  intros Hsame. apply map_eq. intros k. rewrite !insert_all_lookup.
  destruct (decide (k ∈ sts)) as [Hin|Hin].
  - rewrite decide_True; [done | by apply Hsame].
  - rewrite decide_False; [done | by rewrite <-Hsame].
Qed.

Lemma insert_all_app sts sts' (m : gmap State bool) :
  insert_all (sts ++ sts')%list m = insert_all sts' (insert_all sts m).
Proof. unfold insert_all. apply foldl_app. Qed.

(** X1. [AddStates] cannot fail and touches the state set only. Afterwards a
    label is in the state set exactly when it is an argument or was in the set
    before. The call depends only on which labels occur among its arguments,
    not on their order or repetition; adding the same labels again changes
    nothing; one call on a concatenation is two calls in sequence. *)
Theorem AddStates_set sts f :
  AddStates sts f = set_states (states (AddStates sts f)) f ∧
  (∀ k, has (states (AddStates sts f)) k = true ↔ k ∈ sts ∨ has (states f) k = true) ∧
  (∀ sts', (∀ k, k ∈ sts ↔ k ∈ sts') → AddStates sts' f = AddStates sts f) ∧
  AddStates sts (AddStates sts f) = AddStates sts f ∧
  (∀ sts', AddStates (sts ++ sts')%list f = AddStates sts' (AddStates sts f)).
Proof.
  rewrite !AddStates_eq. simpl. repeat apply conj.
  - done.
  - intros k. apply insert_all_has_iff.
  - intros sts' Hsame. rewrite AddStates_eq. f_equal. symmetry. by apply insert_all_perm.
  - unfold set_states; simpl. f_equal. rewrite <-insert_all_app.
    apply insert_all_perm. intros k. rewrite elem_of_app. tauto.
  - intros sts'. rewrite !AddStates_eq. unfold set_states; simpl. f_equal.
    apply insert_all_app.
Qed.

(** X2. [AddSymbols] cannot fail and touches the alphabet only. Afterwards a
    symbol is in the alphabet exactly when it is an argument or was in the
    alphabet before; order and repetition of the arguments do not matter,
    adding the same symbols again changes nothing, and one call on a
    concatenation is two calls in sequence. *)
Theorem AddSymbols_set symbols f :
  AddSymbols symbols f = set_alphabet (alphabet (AddSymbols symbols f)) f ∧
  (∀ k, has (alphabet (AddSymbols symbols f)) k = true ↔
        k ∈ symbols ∨ has (alphabet f) k = true) ∧
  (∀ symbols', (∀ k, k ∈ symbols ↔ k ∈ symbols') →
     AddSymbols symbols' f = AddSymbols symbols f) ∧
  AddSymbols symbols (AddSymbols symbols f) = AddSymbols symbols f ∧
  (∀ symbols', AddSymbols (symbols ++ symbols')%list f =
               AddSymbols symbols' (AddSymbols symbols f)).
Proof.
  rewrite !AddSymbols_eq. simpl. repeat apply conj.
  - done.
  - intros k. apply insert_all_has_iff.
  - intros symbols' Hsame. rewrite AddSymbols_eq. f_equal. symmetry.
    by apply insert_all_perm.
  - unfold set_alphabet; simpl. f_equal. rewrite <-insert_all_app.
    apply insert_all_perm. intros k. rewrite elem_of_app. tauto.
  - intros symbols'. rewrite !AddSymbols_eq. unfold set_alphabet; simpl. f_equal.
    apply insert_all_app.
Qed.

(** ** SetInitialState *)

(** X3. [SetInitialState] validates against the state set of the moment of
    the call. On a label that is not in the set it returns "state X not in
    state set" and leaves the object, hence an initial state recorded
    earlier, as it was. On a label of the set it records it and changes
    nothing else; of two successful calls the last one wins. A state added
    after a failed call makes the same call succeed. *)
Theorem SetInitialState_call_time q f :
  (has (states f) q = false →
     SetInitialState q f = (f, Some (ErrStateNotInSet q)) ∧
     Error (ErrStateNotInSet q) = "state " +:+ q +:+ " not in state set" ∧
     SetInitialState q (AddStates [q] f) =
       (set_initialState q (AddStates [q] f), None)) ∧
  (has (states f) q = true →
     SetInitialState q f = (set_initialState q f, None) ∧
     ∀ q', has (states f) q' = true →
       SetInitialState q' (SetInitialState q f).1 = (set_initialState q' f, None)).
Proof.
  split.
  - intros Hq. split; [|split; [done|]].
    + unfold SetInitialState. by rewrite Hq.
    + assert (has (states (AddStates [q] f)) q = true) as Hadded.
      { simpl. rewrite has_insert. by rewrite bool_decide_eq_true_2. }
      unfold SetInitialState. by rewrite Hadded.
  - intros Hq. unfold SetInitialState. rewrite Hq. simpl. split; [done|].
    intros q' Hq'. by rewrite Hq'.
Qed.

Lemma SetInitialState_call_time_witness :
  let f := AddStates ["q0"; "q1"; "q2"] NewFSM in
  SetInitialState "S0" f = (f, Some (ErrStateNotInSet "S0")) ∧
  Error (ErrStateNotInSet "S0") = "state S0 not in state set".
Proof.
  intros f.
  destruct (SetInitialState_call_time "S0" f) as [Hfail _].
  destruct Hfail as (H1 & H2 & _); [vm_compute; reflexivity|].
  split; [exact H1 | exact H2].
Defined.

(** ** AddTransitions *)

Lemma AddTransition_success state symbol nextState f f' :
  AddTransition state symbol nextState f = (f', None) ↔
  valid_entry f (mkKey state symbol, nextState) ∧
  transitions f !! mkKey state symbol = None ∧
  f' = set_transitions (<[mkKey state symbol := nextState]> (transitions f)) f.
Proof.
  unfold AddTransition, valid_entry; simpl.
  destruct (has (states f) state), (has (states f) nextState),
    (has (alphabet f) symbol), (transitions f !! mkKey state symbol) eqn:Hk; simpl;
    split; try (intros [= <-]); try (intros ((? & ? & ?) & ? & ?)); try done.
  by subst.
Qed.

Lemma AddTransition_failure state symbol nextState f f' err :
  AddTransition state symbol nextState f = (f', Some err) → f' = f.
Proof.
  unfold AddTransition. repeat (destruct (negb _); [congruence|]).
  destruct (transitions f !! _); congruence.
Qed.

Lemma AddTransitions_entries_app l1 l2 f :
  AddTransitions_entries (l1 ++ l2)%list f =
  match AddTransitions_entries l1 f with
  | (f1, Some err) => (f1, Some err)
  | (f1, None) => AddTransitions_entries l2 f1
  end.
Proof.
  revert f. induction l1 as [|[key nextState] rest IH]; intros f; simpl; [done|].
  destruct (AddTransition _ _ _ f) as [f1 [err|]]; [done|]. apply IH.
Qed.

Lemma AddTransitions_from_entries o i batch f :
  AddTransitions_from o i batch f = AddTransitions_entries (batch_entries o i batch) f.
Proof.
  revert i f. induction batch as [|transition rest IH]; intros i f; simpl; [done|].
  rewrite AddTransitions_entries_app.
  destruct (AddTransitions_entries _ f) as [f1 [err|]]; [done|]. apply IH.
Qed.

Lemma AddTransitions_entries_success entries f f' :
  AddTransitions_entries entries f = (f', None) ↔
  entries_ok f entries ∧
  f' = set_transitions (list_to_map entries ∪ transitions f) f.
Proof.
  revert f f'. induction entries as [|[[state symbol] nextState] rest IH]; intros f f'.
  - simpl. unfold entries_ok. rewrite (left_id_L ∅ (∪)). split.
    + intros [= <-]. repeat split; try constructor.
      * intros key Hin. by apply elem_of_nil in Hin.
      * by destruct f.
    + intros [_ ->]. by destruct f.
  - cbn [AddTransitions_entries key_State key_Symbol].
    destruct (AddTransition state symbol nextState f) as [f1 [err|]] eqn:Hadd.
    + split; [done|]. intros [(Hvalid & Hnodup & Hfresh) _]. exfalso.
      inversion_clear Hvalid as [|? ? Hv _].
      assert (AddTransition state symbol nextState f =
              (set_transitions (<[mkKey state symbol := nextState]> (transitions f)) f,
               None)) as Hok; [|congruence].
      apply AddTransition_success. split; [done|]. split; [|done].
      apply Hfresh. simpl. by left.
    + apply AddTransition_success in Hadd as (Hv & Hk & ->).
      rewrite IH. unfold entries_ok. simpl.
      set (key := mkKey state symbol) in *.
      split.
      * intros [(Hvalid & Hnodup & Hfresh) ->].
        assert (key ∉ rest.*1) as Hnotin.
        { intros Hin. specialize (Hfresh key Hin). by rewrite lookup_insert_eq in Hfresh. }
        split; [split; [|split]|].
        -- by constructor.
        -- by constructor.
        -- intros key' [->|Hin]%elem_of_cons; [done|].
           specialize (Hfresh key' Hin). rewrite lookup_insert_ne in Hfresh; [done|].
           by intros ->.
        -- unfold set_transitions; simpl. f_equal.
           rewrite <-insert_union_l. symmetry. apply insert_union_r.
           by apply not_elem_of_list_to_map_1.
      * intros [(Hvalid & Hnodup & Hfresh) ->].
        inversion_clear Hvalid as [|? ? _ Hrest].
        inversion_clear Hnodup as [|? ? Hnotin Hnodup'].
        split; [split; [|split]|]; [done..| |].
        -- intros key' Hin. rewrite lookup_insert_ne; [|by intros ->].
           apply Hfresh. by right.
        -- unfold set_transitions; simpl. f_equal.
           rewrite <-insert_union_l. apply insert_union_r.
           by apply not_elem_of_list_to_map_1.
Qed.

Lemma AddTransitions_entries_None entries f :
  (AddTransitions_entries entries f).2 = None ↔ entries_ok f entries.
Proof.
  destruct (AddTransitions_entries entries f) as [f' [err|]] eqn:Hadd; simpl.
  - split; [done|]. intros Hok.
    assert (AddTransitions_entries entries f =
            (set_transitions (list_to_map entries ∪ transitions f) f, None)) as H;
      [by apply AddTransitions_entries_success | congruence].
  - split; [|done]. intros _. by apply AddTransitions_entries_success in Hadd as [? _].
Qed.

Lemma entries_ok_perm f l1 l2 : l1 ≡ₚ l2 → entries_ok f l1 → entries_ok f l2.
Proof.
  intros Hperm (Hvalid & Hnodup & Hfresh). split; [|split].
  - by rewrite <-Hperm.
  - by rewrite <-Hperm.
  - intros key Hin. apply Hfresh. by rewrite Hperm.
Qed.

Lemma batch_entries_perm o o' i j batch :
  batch_entries o i batch ≡ₚ batch_entries o' j batch.
Proof.
  revert i j. induction batch as [|transition rest IH]; intros i j; simpl; [done|].
  rewrite !range_transition_perm. by rewrite (IH (S i) (S j)).
Qed.

Lemma AddTransitions_failure_shape entries f f' err :
  AddTransitions_entries entries f = (f', Some err) ↔
  ∃ pre e post,
    entries = (pre ++ e :: post)%list ∧
    AddTransitions_entries pre f = (f', None) ∧
    AddTransition (key_State e.1) (key_Symbol e.1) e.2 f' = (f', Some err).
Proof.
  revert f. induction entries as [|[key nextState] rest IH]; intros f.
  - simpl. split; [done|]. intros (pre & ? & ? & Heq & _). by destruct pre.
  - cbn [AddTransitions_entries]. split.
    + intros Hres.
      destruct (AddTransition _ _ _ f) as [f1 [err1|]] eqn:Hadd.
      * injection Hres as -> ->.
        pose proof (AddTransition_failure _ _ _ _ _ _ Hadd) as ->.
        by exists [], (key, nextState), rest.
      * apply IH in Hres as (pre & e & post & -> & Hpre & He).
        exists ((key, nextState) :: pre), e, post. split; [done|].
        split; [|done]. simpl. by rewrite Hadd.
    + intros (pre & e & post & Heq & Hpre & He).
      destruct pre as [|e' pre]; simpl in Heq; injection Heq as <- ->.
      * simpl in Hpre. injection Hpre as ->. simpl in He. by rewrite He.
      * simpl in Hpre.
        destruct (AddTransition _ _ _ f) as [f1 [err1|]] eqn:Hadd; [done|].
        apply IH. by exists pre, e, post.
Qed.

(** X4. [AddTransitions] feeds the entries of its batch to [AddTransition]
    one by one and stops at the first that fails: it fails with [err] exactly
    when some entry fails with [err] after all the entries before it were
    accepted. The builder then keeps every transition accepted before the
    failure (no rollback), each with the target given in the batch, and
    loses nothing it had. *)
Theorem AddTransitions_first_failure o batch f f' err :
  (AddTransitions o batch f = (f', Some err) ↔
   ∃ pre e post,
     batch_entries o 0 batch = (pre ++ e :: post)%list ∧
     AddTransitions_entries pre f = (f', None) ∧
     AddTransition (key_State e.1) (key_Symbol e.1) e.2 f' = (f', Some err)) ∧
  (∀ pre key nextState,
     AddTransitions_entries pre f = (f', None) → (key, nextState) ∈ pre →
     transitions f' !! key = Some nextState) ∧
  (AddTransitions o batch f = (f', Some err) → extends f f').
Proof.
  unfold AddTransitions. rewrite AddTransitions_from_entries. split; [|split].
  - apply AddTransitions_failure_shape.
  - intros pre key nextState [(_ & Hnodup & _) ->]%AddTransitions_entries_success Hin.
    simpl. apply lookup_union_Some_l. by apply elem_of_list_to_map.
  - intros Hres.
    pose proof (AddTransitions_entries_extends (batch_entries o 0 batch) f) as He.
    by rewrite Hres in He.
Qed.

(** A batch that defines (q0, 0) twice: the second entry is refused, the
    first stays. *)
Lemma AddTransitions_first_failure_witness :
  let f := AddSymbols ["0"; "1"] (AddStates ["q0"; "q1"] NewFSM) in
  let f' := (AddTransition "q0" "0" "q1" f).1 in
  AddTransitions canonical_order
    [ {[ mkKey "q0" "0" := "q1" ]}; {[ mkKey "q0" "0" := "q0" ]} ] f =
    (f', Some (ErrTransitionAlreadyDefined "q0" "0")) ∧
  transitions f' !! mkKey "q0" "0" = Some "q1".
Proof.
  intros f f'.
  destruct (AddTransitions_first_failure canonical_order
              [ {[ mkKey "q0" "0" := "q1" ]}; {[ mkKey "q0" "0" := "q0" ]} ]
              f f' (ErrTransitionAlreadyDefined "q0" "0")) as (Hshape & Hkept & _).
  split.
  - apply Hshape.
    exists [(mkKey "q0" "0", "q1")], (mkKey "q0" "0", "q0"), [].
    split; [vm_compute; reflexivity|]. split; vm_compute; reflexivity.
  - apply (Hkept [(mkKey "q0" "0", "q1")]); [vm_compute; reflexivity|].
    constructor.
Defined.

(** X5. Whether [AddTransitions] accepts a batch does not depend on the order
    in which Go iterates over the maps of the batch. The batch is accepted
    exactly when every entry names declared states and a declared symbol, no
    pair occurs twice in the batch, and no pair of the batch has a transition
    already; the builder then holds the old transitions and those of the
    batch, whatever the order was. *)
Theorem AddTransitions_order_independent o batch f :
  ((AddTransitions o batch f).2 = None ↔
   entries_ok f (batch_entries canonical_order 0 batch)) ∧
  (entries_ok f (batch_entries canonical_order 0 batch) →
   AddTransitions o batch f =
     (set_transitions
        (list_to_map (batch_entries canonical_order 0 batch) ∪ transitions f) f,
      None)) ∧
  (∀ o', (AddTransitions o batch f).2 = None →
         AddTransitions o' batch f = AddTransitions o batch f).
Proof.
  unfold AddTransitions. rewrite !AddTransitions_from_entries.
  assert (∀ o1 o2, entries_ok f (batch_entries o1 0 batch) →
            AddTransitions_entries (batch_entries o2 0 batch) f =
            (set_transitions
               (list_to_map (batch_entries o1 0 batch) ∪ transitions f) f, None))
    as Hany.
  { intros o1 o2 Hok. apply AddTransitions_entries_success.
    pose proof (batch_entries_perm o1 o2 0 0 batch) as Hperm.
    split; [by eapply entries_ok_perm|]. do 2 f_equal.
    apply list_to_map_proper; [apply Hok | done]. }
  split; [|split].
  - rewrite AddTransitions_entries_None. split; apply entries_ok_perm, batch_entries_perm.
  - apply Hany.
  - intros o' Hnone. rewrite !AddTransitions_from_entries.
    apply AddTransitions_entries_None in Hnone.
    by rewrite (Hany o o' Hnone), (Hany o o Hnone).
Qed.

(** The batch of [main] on main's builder: accepted under every order. *)
Lemma AddTransitions_order_independent_witness :
  let f := (AddFinalStates ["S0"; "S1"; "S2"]
              (SetInitialState "S0"
                 (AddSymbols ["0"; "1"] (AddStates ["S0"; "S1"; "S2"] NewFSM))).1).1 in
  AddTransitions (reverse_order canonical_order) main_transitions f =
    (set_transitions
       (list_to_map (batch_entries canonical_order 0 main_transitions) ∪ transitions f) f,
     None).
Proof.
  intros f.
  apply (proj1 (proj2 (AddTransitions_order_independent
                         (reverse_order canonical_order) main_transitions f))).
  split; [|split].
  - vm_compute. repeat constructor.
  - apply (bool_decide_unpack _). vm_compute. exact I.
  - intros key _. vm_compute. reflexivity.
Defined.

(** ** The invariant of every object made through the package *)

Lemma NewFSM_wf : wf NewFSM.
Proof.
  split; simpl; try (by left); try (intros ? ?; by rewrite lookup_empty).
  intros k. unfold has. by rewrite lookup_empty.
Qed.

Lemma insert_all_true sts (m : gmap State bool) :
  (∀ k v, m !! k = Some v → v = true) →
  ∀ k v, insert_all sts m !! k = Some v → v = true.
Proof.
  intros Hm k v. rewrite insert_all_lookup.
  destruct (decide (k ∈ sts)); [by intros [= <-] | apply Hm].
Qed.

Lemma wf_AddStates sts f : wf f → wf (AddStates sts f).
Proof.
  intros [H1 H2 H3 H4 H5 H6 H7]. rewrite AddStates_eq.
  pose proof (insert_all_grows sts (states f)) as Hg.
  split; simpl; try done.
  - by apply insert_all_true.
  - intros k Hk. by apply Hg, H4.
  - intros key nextState Hkey. destruct (H5 key nextState Hkey) as (? & ? & ?).
    split; [by apply Hg|]. split; [done | by apply Hg].
  - destruct H6; [by left | right; by apply Hg].
  - destruct H7; [by left | right; by apply Hg].
Qed.

Lemma wf_AddSymbols symbols f : wf f → wf (AddSymbols symbols f).
Proof.
  intros [H1 H2 H3 H4 H5 H6 H7]. rewrite AddSymbols_eq.
  pose proof (insert_all_grows symbols (alphabet f)) as Hg.
  split; simpl; try done.
  - by apply insert_all_true.
  - intros key nextState Hkey. destruct (H5 key nextState Hkey) as (? & ? & ?).
    split; [done|]. split; [by apply Hg | done].
Qed.

Lemma wf_SetInitialState state f : wf f → wf (SetInitialState state f).1.
Proof.
  intros Hwf. unfold SetInitialState.
  destruct (has (states f) state) eqn:Hs; simpl; [|done].
  destruct Hwf. split; simpl; try done. by right.
Qed.

Lemma wf_AddFinalStates sts f : wf f → wf (AddFinalStates sts f).1.
Proof.
  revert f. induction sts as [|state rest IH]; intros f Hwf; simpl; [done|].
  destruct (has (states f) state) eqn:Hs; simpl; [|done].
  apply IH. destruct Hwf as [H1 H2 H3 H4 H5 H6 H7]. split; simpl; try done.
  - intros k v. rewrite lookup_insert. case_decide; [by intros [= <-] | apply H3].
  - intros k. rewrite has_insert. intros [Hk|Hk]%orb_true_iff; [|by apply H4].
    apply bool_decide_eq_true in Hk. by subst.
Qed.

Lemma wf_AddTransition state symbol nextState f :
  wf f → wf (AddTransition state symbol nextState f).1.
Proof.
  intros Hwf.
  destruct (AddTransition state symbol nextState f) as [f' [err|]] eqn:Hadd; simpl.
  - by rewrite (AddTransition_failure _ _ _ _ _ _ Hadd).
  - apply AddTransition_success in Hadd as ((Hs & Hn & Ha) & Hk & ->). simpl in *.
    destruct Hwf as [H1 H2 H3 H4 H5 H6 H7]. split; simpl; try done.
    intros key next. rewrite lookup_insert. case_decide; [|apply H5].
    subst key. by intros [= <-].
Qed.

Lemma wf_AddTransitions_entries entries f :
  wf f → wf (AddTransitions_entries entries f).1.
Proof.
  revert f. induction entries as [|[key nextState] rest IH]; intros f Hwf; simpl.
  - done.
  - pose proof (wf_AddTransition (key_State key) (key_Symbol key) nextState f Hwf) as H.
    destruct (AddTransition _ _ _ f) as [f1 [err|]]; [done|]. by apply IH.
Qed.

Lemma wf_call_builder c f : wf f → wf (call_builder c f).1.
Proof.
  destruct c as [sts|symbols|state|sts|state symbol nextState|o batch]; simpl.
  - apply wf_AddStates.
  - apply wf_AddSymbols.
  - apply wf_SetInitialState.
  - apply wf_AddFinalStates.
  - apply wf_AddTransition.
  - unfold AddTransitions. rewrite AddTransitions_from_entries.
    apply wf_AddTransitions_entries.
Qed.

Lemma wf_set_currentState s f :
  wf f → s = "" ∨ has (states f) s = true → wf (set_currentState s f).
Proof. intros [] Hs. by split. Qed.

Lemma wf_Build o f : wf f → wf (Build o f).1.
Proof.
  intros Hwf. unfold Build. repeat case_bool_decide; try done.
  destruct (has (states f) (initialState f)) eqn:Hs; simpl; [|done].
  destruct (Build_states _ _ _); [done|]. simpl.
  apply wf_set_currentState; [done | by right].
Qed.

Lemma wf_Reset f : wf f → wf (Reset f).
Proof. intros Hwf. apply wf_set_currentState; [done | apply Hwf]. Qed.

Lemma wf_step symbol f : wf f → wf (step symbol f).1.
Proof.
  intros Hwf. unfold step. destruct (negb _); [done|].
  destruct (transitions f !! _) as [nextState|] eqn:Hk; simpl; [|done].
  apply wf_set_currentState; [done|]. right.
  by destruct (wf_transitions f Hwf _ _ Hk) as (_ & _ & ?).
Qed.

Lemma wf_ProcessString_loop symbols f : wf f → wf (ProcessString_loop symbols f).1.
Proof.
  revert f. induction symbols as [|symbol rest IH]; intros f Hwf; simpl; [done|].
  pose proof (wf_step symbol f Hwf) as H.
  destruct (step symbol f) as [f1 [err|]]; [done|]. by apply IH.
Qed.

Lemma wf_ProcessInput input f : wf f → wf (ProcessInput input f).1.
Proof.
  intros Hwf. unfold ProcessInput, ProcessString.
  pose proof (wf_ProcessString_loop (symbols_of input) (Reset f) (wf_Reset f Hwf)) as H.
  by destruct (ProcessString_loop _ _) as [f1 [err|]].
Qed.

Lemma wf_call c f : wf f → wf (call c f).
Proof.
  destruct c as [c|o| |symbol|input|input]; simpl.
  - apply wf_call_builder.
  - apply wf_Build.
  - apply wf_Reset.
  - apply wf_step.
  - apply wf_ProcessString_loop.
  - apply wf_ProcessInput.
Qed.

Lemma run_keeps_wf calls f : wf f → wf (run calls f).
Proof.
  unfold run. revert f. induction calls as [|c rest IH]; intros f Hwf; simpl; [done|].
  apply IH. by apply wf_call.
Qed.

(** X6. Whatever calls of the package are made on the object of a new
    builder, in whatever order and whether they fail or not, the object keeps
    its invariant: the three sets hold [true] only, every final state is a
    state, every transition goes from a declared state on a declared symbol
    to a declared state, and the initial state and the cursor are each
    either the zero value or a declared state. *)
Theorem run_wf calls : wf (run calls NewFSM).
Proof. apply run_keeps_wf, NewFSM_wf. Qed.

(** X7. On such an object [Build] never returns InitialStateNotInStates:
    the state set only grows, so an initial state that [SetInitialState]
    accepted is still declared when [Build] looks again. *)
Theorem Build_never_InitialStateNotInStates calls o :
  (Build o (run calls NewFSM)).2 ≠ Some ErrInitialStateNotInStates.
Proof.
  pose proof (run_keeps_wf calls NewFSM NewFSM_wf) as Hwf. set (f := run calls NewFSM) in *.
  unfold Build. repeat case_bool_decide; try done.
  destruct (wf_initialState f Hwf) as [?|Hin]; [done|]. rewrite Hin. simpl.
  destruct (Build_states _ _ _) as [err|] eqn:Hscan; [|done]. simpl.
  apply Build_scan_Some in Hscan as (state & symbol & _ & ->). done.
Qed.

(** X8. The automaton that a successful [Build] returns has a non-empty
    state set, a non-empty alphabet, an initial state and a non-empty set of
    final states that are all declared states; its transition function is
    defined on exactly the pairs of a declared state and a declared symbol,
    and maps into the declared states; its cursor is on the initial state. *)
Theorem Build_invariants calls o a :
  Build o (run calls NewFSM) = (a, None) →
  size (states a) ≠ 0 ∧ size (alphabet a) ≠ 0 ∧ size (finalStates a) ≠ 0 ∧
  has (states a) (initialState a) = true ∧
  currentState a = initialState a ∧
  (∀ k, has (finalStates a) k = true → has (states a) k = true) ∧
  (∀ state symbol,
     is_Some (transitions a !! mkKey state symbol) ↔
     has (states a) state = true ∧ has (alphabet a) symbol = true) ∧
  (∀ key nextState, transitions a !! key = Some nextState →
     has (states a) nextState = true).
Proof.
  intros Hb. pose proof (run_keeps_wf calls NewFSM NewFSM_wf) as Hwf. set (f := run calls NewFSM) in *.
  pose proof (Build_None_checks o f) as Hok. rewrite Hb in Hok.
  destruct (Hok eq_refl) as (H1 & H2 & H3 & H4 & H5 & Ht).
  apply Build_success in Hb as (-> & _ & _). simpl.
  repeat apply conj; try done.
  - apply Hwf.
  - intros state symbol. split.
    + intros [nextState Hk].
      by destruct (wf_transitions f Hwf _ _ Hk) as (? & ? & _).
    + intros [Hs Ha]. apply Ht; by apply has_true_dom.
  - intros key nextState Hk. by destruct (wf_transitions f Hwf _ _ Hk) as (_ & _ & ?).
Qed.

Lemma Build_invariants_witness :
  let a := (Build canonical_order (run (CallBuilder <$> main_calls canonical_order) NewFSM)).1 in
  size (states a) ≠ 0 ∧ size (alphabet a) ≠ 0 ∧ size (finalStates a) ≠ 0 ∧
  has (states a) (initialState a) = true.
Proof.
  intros a.
  destruct (Build_invariants (CallBuilder <$> main_calls canonical_order)
              canonical_order a) as (H1 & H2 & H3 & H4 & _).
  - vm_compute. reflexivity.
  - repeat split; assumption.
Defined.

(** ** Build and the iteration order *)

(** X9. The outcome of [Build] depends on the order in which Go iterates over
    the sets in one respect only: which missing pair a MissingTransition
    error names. Whether [Build] succeeds, the kind of its error and the
    object it leaves are the same for every order; a success, and every error
    other than MissingTransition, is the same result for every order. *)
Theorem Build_order_independent o o' f :
  (Build o' f).1 = (Build o f).1 ∧
  kind <$> (Build o' f).2 = kind <$> (Build o f).2 ∧
  (∀ err, (Build o f).2 = Some err → kind err ≠ MissingTransition →
          Build o' f = Build o f) ∧
  ((Build o f).2 = None → Build o' f = Build o f).
Proof.
  unfold Build. repeat case_bool_decide; try done.
  destruct (negb _); [done|].
  destruct (Build_states o f _) as [err|] eqn:Hscan;
    destruct (Build_states o' f _) as [err'|] eqn:Hscan'.
  - apply Build_scan_Some in Hscan as (? & ? & _ & ->).
    apply Build_scan_Some in Hscan' as (? & ? & _ & ->). simpl.
    repeat split; try done. by intros err [= <-].
  - apply Build_scan_None in Hscan'. apply (Build_scan_None o) in Hscan'. congruence.
  - apply Build_scan_None in Hscan. apply (Build_scan_None o') in Hscan. congruence.
  - done.
Qed.

(** X10. [Build] can be called again. After a successful [Build], a second
    call on the unchanged builder succeeds with the same automaton, and puts
    its cursor back on the initial state wherever processing had left it:
    the automaton handed out by the first call is rewound. *)
Theorem Build_again o f a :
  Build o f = (a, None) →
  ∀ o' s, Build o' (set_currentState s a) = (a, None).
Proof.
  intros Hb o' s. pose proof (Build_None_checks o f) as Hok. rewrite Hb in Hok.
  destruct (Hok eq_refl) as (H1 & H2 & H3 & H4 & H5 & Ht).
  apply Build_success in Hb as (-> & _ & _).
  rewrite Build_structural_checks by done.
  assert (total (set_currentState s (set_currentState (initialState f) f))) as Ht'
    by done.
  by rewrite (proj2 (Build_scan_None o' _) Ht').
Qed.

Lemma Build_again_witness :
  let a := (Build canonical_order main_fsm).1 in
  Build canonical_order (ProcessInput "1101" a).1 = (a, None).
Proof.
  intros a.
  pose proof (Build_again canonical_order main_fsm a) as H.
  rewrite (ProcessInput_cursor_only "1101" a). apply H.
  vm_compute. reflexivity.
Defined.

(** ** Processing input on a built automaton *)

Lemma ProcessString_loop_app l1 l2 f :
  ProcessString_loop (l1 ++ l2)%list f =
  match ProcessString_loop l1 f with
  | (f1, Some err) => (f1, Some err)
  | (f1, None) => ProcessString_loop l2 f1
  end.
Proof.
  revert f. induction l1 as [|symbol rest IH]; intros f; simpl; [done|].
  destruct (step symbol f) as [f1 [err|]]; [done|]. apply IH.
Qed.

Lemma ProcessString_loop_known symbols s f :
  total f → targets_in_states f → has (states f) s = true →
  Forall (λ symbol, has (alphabet f) symbol = true) symbols →
  ∃ s', ProcessString_loop symbols (set_currentState s f) = (set_currentState s' f, None) ∧
        has (states f) s' = true.
Proof.
  intros Ht Hinv. revert s.
  induction symbols as [|symbol rest IH]; intros s Hs Hall; cbn [ProcessString_loop].
  - by exists s.
  - inversion_clear Hall as [|? ? Ha Hrest].
    destruct (step_defined symbol s f Ht Hinv Hs Ha) as (nextState & -> & Hnext).
    by apply IH.
Qed.

Lemma step_unknown symbol f :
  has (alphabet f) symbol = false →
  step symbol f = (f, Some (ErrSymbolNotInAlphabet symbol)).
Proof. intros Ha. unfold step. by rewrite Ha. Qed.

Lemma ProcessString_loop_unknown pre bad post s f :
  total f → targets_in_states f → has (states f) s = true →
  Forall (λ symbol, has (alphabet f) symbol = true) pre →
  has (alphabet f) bad = false →
  ∃ s', ProcessString_loop pre (set_currentState s f) = (set_currentState s' f, None) ∧
        ProcessString_loop (pre ++ bad :: post)%list (set_currentState s f) =
          (set_currentState s' f, Some (ErrSymbolNotInAlphabet bad)) ∧
        has (states f) s' = true.
Proof.
  intros Ht Hinv Hs Hpre Hbad.
  destruct (ProcessString_loop_known pre s f Ht Hinv Hs Hpre) as (s' & Hloop & Hs').
  exists s'. split; [done|]. split; [|done].
  rewrite ProcessString_loop_app, Hloop. cbn [ProcessString_loop].
  by rewrite step_unknown.
Qed.

(** On the object that a successful [Build] returns, as it is at that
    moment, [ProcessInput] can fail in one way only. If every symbol of the input is in the
    alphabet it returns no error, ends in a declared state and reports
    whether that state is final. Otherwise it returns [false] and "symbol X
    not in alphabet" for the first symbol X that is not in the alphabet, with
    the cursor on the state reached by the symbols before X. *)
Lemma ProcessInput_outcome calls o a input :
  Build o (run calls NewFSM) = (a, None) →
  (Forall (λ symbol, has (alphabet a) symbol = true) (symbols_of input) →
     ∃ s', ProcessInput input a = (set_currentState s' a, (has (finalStates a) s', None)) ∧
           has (states a) s' = true) ∧
  (∀ pre bad post,
     symbols_of input = (pre ++ bad :: post)%list →
     Forall (λ symbol, has (alphabet a) symbol = true) pre →
     has (alphabet a) bad = false →
     ∃ s', ProcessInput input a =
             (set_currentState s' a, (false, Some (ErrSymbolNotInAlphabet bad))) ∧
           ProcessString_loop pre a = (set_currentState s' a, None) ∧
           has (states a) s' = true ∧
           Error (ErrSymbolNotInAlphabet bad) = "symbol " +:+ bad +:+ " not in alphabet").
Proof.
  intros (-> & Ht & Hinit)%Build_success.
  pose proof (run_targets calls NewFSM NewFSM_targets) as Hinv.
  set (f := run calls NewFSM) in *.
  unfold ProcessInput, ProcessString.
  change (Reset (set_currentState (initialState f) f))
    with (set_currentState (initialState f) f).
  split.
  - intros Hall.
    destruct (ProcessString_loop_known _ _ f Ht Hinv Hinit Hall) as (s' & -> & Hs').
    by exists s'.
  - intros pre bad post -> Hpre Hbad.
    destruct (ProcessString_loop_unknown pre bad post _ f Ht Hinv Hinit Hpre Hbad)
      as (s' & Hloop & -> & Hs').
    by exists s'.
Qed.

(** The automaton over a and b of the package's test, on the input abcb. *)
Lemma ProcessInput_outcome_witness :
  let calls := CallBuilder <$>
    [ CallAddStates ["q0"; "q1"]; CallAddSymbols ["a"; "b"];
      CallSetInitialState "q0"; CallAddFinalStates ["q1"];
      CallAddTransitions canonical_order
        [ {[ mkKey "q0" "a" := "q1" ]}; {[ mkKey "q0" "b" := "q0" ]};
          {[ mkKey "q1" "a" := "q1" ]}; {[ mkKey "q1" "b" := "q0" ]} ] ] in
  let a := (Build canonical_order (run calls NewFSM)).1 in
  ∃ s', ProcessInput "abcb" a =
          (set_currentState s' a, (false, Some (ErrSymbolNotInAlphabet "c"))) ∧
        ProcessString_loop ["a"; "b"] a = (set_currentState s' a, None) ∧
        has (states a) s' = true ∧
        Error (ErrSymbolNotInAlphabet "c") = "symbol c not in alphabet".
Proof.
  intros calls a.
  destruct (ProcessInput_outcome calls canonical_order a "abcb") as [_ Hbad].
  - vm_compute. reflexivity.
  - apply (Hbad ["a"; "b"] "c" ["b"]).
    + vm_compute. reflexivity.
    + repeat constructor.
    + vm_compute. reflexivity.
Defined.

(** ** Strings of 7-bit characters *)

Lemma runes_ascii_cons c w :
  (N_of_ascii c <? 0x80)%N = true → runes (String c w) = N_of_ascii c :: runes w.
Proof. intros Hc. simpl. by rewrite Hc. Qed.

Lemma symbols_of_ascii_cons c w :
  (N_of_ascii c <? 0x80)%N = true →
  symbols_of (String c w) = String c EmptyString :: symbols_of w.
Proof.
  intros Hc. unfold symbols_of. rewrite runes_ascii_cons by done.
  rewrite fmap_cons. f_equal. unfold string_of_rune. rewrite Hc.
  unfold utf8_byte. by rewrite ascii_N_embedding.
Qed.

Lemma symbols_of_ascii_app w1 w2 :
  is_ascii w1 = true → symbols_of (w1 +:+ w2) = (chars w1 ++ symbols_of w2)%list.
Proof.
  induction w1 as [|c w1 IH]; simpl; [done|].
  intros [Hc Hw1]%andb_true_iff. rewrite <-IH by done.
  by apply symbols_of_ascii_cons.
Qed.

Lemma string_app_empty w : w +:+ "" = w.
Proof. induction w as [|c w IH]; [done|]. change (String c (w +:+ "") = String c w). by rewrite IH. Qed.

Lemma symbols_of_ascii w : is_ascii w = true → symbols_of w = chars w.
Proof.
  intros Hw. pose proof (symbols_of_ascii_app w "" Hw) as Happ.
  rewrite string_app_empty in Happ. rewrite Happ. apply app_nil_r.
Qed.

Lemma chars_length w : length (chars w) = String.length w.
Proof. induction w as [|c w IH]; simpl; [done | by rewrite IH]. Qed.

(** X12. A string of 7-bit characters is processed one character at a time:
    its symbols are its characters, as many as it has bytes. Processing such
    a string followed by any other string is processing the first and then,
    unless that failed, the second from the state reached; so
    [ProcessString] continues where an earlier [ProcessString] or
    [ProcessInput] stopped. The empty string takes no step: [ProcessInput]
    accepts it exactly when the initial state is final. *)
Theorem ProcessString_ascii w1 w2 f :
  is_ascii w1 = true →
  symbols_of w1 = chars w1 ∧
  length (symbols_of w1) = String.length w1 ∧
  ProcessString (w1 +:+ w2) f =
    match ProcessString w1 f with
    | (f1, Some err) => (f1, Some err)
    | (f1, None) => ProcessString w2 f1
    end ∧
  ProcessString w2 (ProcessInput "" f).1 = ProcessString w2 (Reset f) ∧
  ProcessInput "" f = (Reset f, (has (finalStates f) (initialState f), None)).
Proof.
  intros Hw1. split; [by apply symbols_of_ascii|].
  split; [|split; [|split; reflexivity]].
  - by rewrite symbols_of_ascii, chars_length.
  - unfold ProcessString.
    rewrite symbols_of_ascii_app, ProcessString_loop_app by done.
    by rewrite (symbols_of_ascii w1).
Qed.

Lemma ProcessString_ascii_witness :
  let a := set_currentState "S0" main_fsm in
  ProcessString ("11" +:+ "01") a = ProcessString "01" (ProcessString "11" a).1.
Proof.
  intros a.
  destruct (ProcessString_ascii "11" "01" a) as (_ & _ & Happ & _);
    [vm_compute; reflexivity|].
  rewrite Happ.
  assert (ProcessString "11" a = ((ProcessString "11" a).1, None)) as ->
    by (vm_compute; reflexivity).
  reflexivity.
Defined.

(** ** The getters *)

Lemma append_loop {A} (acc l : list A) :
  foldl (λ acc x, acc ++ [x])%list acc l = (acc ++ l)%list.
Proof.
  revert acc. induction l as [|x l IH]; intros acc; simpl.
  - by rewrite app_nil_r.
  - rewrite IH. by rewrite <-app_assoc.
Qed.

Lemma keys_elem `{Countable K} {V} (m : gmap K V) k :
  k ∈ (map_to_list m).*1 ↔ is_Some (m !! k).
Proof.
  rewrite list_elem_of_fmap. split.
  - intros [[k' v] [-> Hkv]]. apply elem_of_map_to_list in Hkv. by exists v.
  - intros [v Hv]. exists (k, v). split; [done|]. by apply elem_of_map_to_list.
Qed.

Lemma range_keys_snapshot k (m : gmap string bool) :
  (∀ key v, m !! key = Some v → v = true) →
  NoDup (range_keys k m) ∧ length (range_keys k m) = size m ∧
  ∀ key, key ∈ range_keys k m ↔ has m key = true.
Proof.
  intros Htrue. pose proof (range_keys_perm k m) as Hperm. split; [|split].
  - rewrite Hperm. apply NoDup_fst_map_to_list.
  - rewrite Hperm, length_fmap. apply length_map_to_list.
  - intros key. rewrite Hperm, keys_elem, has_true. split.
    + intros [v Hv]. by rewrite (Htrue key v Hv) in Hv.
    + intros Hkey. by exists true.
Qed.

(** X13. On an object made through the package, [GetStates], [GetAlphabet]
    and [GetFinalStates] return each member of the set once and nothing
    else, so the slice is as long as the set is large; every final state
    returned is among the states returned; and two calls return the same
    elements, possibly in different orders. *)
Theorem getters_snapshot calls k :
  let f := run calls NewFSM in
  (NoDup (GetStates k f) ∧ length (GetStates k f) = size (states f) ∧
   ∀ s, s ∈ GetStates k f ↔ has (states f) s = true) ∧
  (NoDup (GetAlphabet k f) ∧ length (GetAlphabet k f) = size (alphabet f) ∧
   ∀ a, a ∈ GetAlphabet k f ↔ has (alphabet f) a = true) ∧
  (NoDup (GetFinalStates k f) ∧ length (GetFinalStates k f) = size (finalStates f) ∧
   ∀ s, s ∈ GetFinalStates k f ↔ has (finalStates f) s = true) ∧
  (∀ k' s, s ∈ GetFinalStates k f → s ∈ GetStates k' f) ∧
  (∀ k', GetStates k' f ≡ₚ GetStates k f ∧ GetAlphabet k' f ≡ₚ GetAlphabet k f ∧
         GetFinalStates k' f ≡ₚ GetFinalStates k f).
Proof.
  intros f. pose proof (run_keeps_wf calls NewFSM NewFSM_wf) as Hwf. fold f in Hwf.
  unfold GetStates, GetAlphabet, GetFinalStates. rewrite !append_loop. simpl.
  pose proof (λ k, range_keys_snapshot k (states f) (wf_states f Hwf)) as Hs.
  pose proof (λ k, range_keys_snapshot k (alphabet f) (wf_alphabet f Hwf)) as Ha.
  pose proof (λ k, range_keys_snapshot k (finalStates f) (wf_finalStates f Hwf)) as Hf.
  split; [apply Hs|]. split; [apply Ha|]. split; [apply Hf|]. split.
  - intros k' s Hin. rewrite !append_loop. simpl.
    apply (Hs k'), (wf_final_in_states f Hwf), (Hf k), Hin.
  - intros k'. rewrite !append_loop. simpl. by rewrite !range_keys_perm.
Qed.

Lemma reverse_NoDup_ne {A} (l : list A) : NoDup l → (2 ≤ length l)%nat → reverse l ≠ l.
Proof.
  intros Hnodup Hlen Heq.
  destruct l as [|x [|y l]]; simpl in Hlen; [lia..|].
  assert (last (x :: y :: l) = Some x) as Hlast.
  { rewrite <-Heq at 1. by rewrite last_reverse. }
  rewrite last_cons_cons in Hlast. apply last_Some_elem_of in Hlast.
  by apply NoDup_cons in Hnodup as [? _].
Qed.

(** X14. The order of the slice a getter returns is not determined: on an
    object with at least two states (symbols, final states), for every
    iteration order there is another one under which the getter returns a
    different slice. Callers that compare the result as a sequence depend on
    the iteration order of Go's maps. *)
Theorem getters_order_dependent calls k :
  let f := run calls NewFSM in
  ((2 ≤ size (states f))%nat → GetStates (reverse_keys k) f ≠ GetStates k f) ∧
  ((2 ≤ size (alphabet f))%nat → GetAlphabet (reverse_keys k) f ≠ GetAlphabet k f) ∧
  ((2 ≤ size (finalStates f))%nat →
     GetFinalStates (reverse_keys k) f ≠ GetFinalStates k f).
Proof.
  intros f. pose proof (run_keeps_wf calls NewFSM NewFSM_wf) as Hwf. fold f in Hwf.
  unfold GetStates, GetAlphabet, GetFinalStates. rewrite !append_loop. simpl.
  pose proof (range_keys_snapshot k (states f) (wf_states f Hwf)) as (Hs1 & Hs2 & _).
  pose proof (range_keys_snapshot k (alphabet f) (wf_alphabet f Hwf)) as (Ha1 & Ha2 & _).
  pose proof (range_keys_snapshot k (finalStates f) (wf_finalStates f Hwf))
    as (Hf1 & Hf2 & _).
  split; [|split]; intros Hsize; apply reverse_NoDup_ne; try done.
  - exact (eq_ind_r (λ n, 2 ≤ n)%nat Hsize Hs2).
  - exact (eq_ind_r (λ n, 2 ≤ n)%nat Hsize Ha2).
  - exact (eq_ind_r (λ n, 2 ≤ n)%nat Hsize Hf2).
Qed.

Lemma getters_order_dependent_witness :
  GetStates (reverse_keys canonical_keys) main_fsm ≠ GetStates canonical_keys main_fsm.
Proof.
  assert (main_fsm = run (CallBuilder <$> main_calls canonical_order) NewFSM) as Hrun
    by (vm_compute; reflexivity).
  rewrite Hrun.
  apply (proj1 (getters_order_dependent
                  (CallBuilder <$> main_calls canonical_order) canonical_keys)).
  vm_compute. lia.
Defined.

(** ** Builders do not share *)

Lemma at_ptr_frame {A} p (m : FSM → FSM * A) (h h' : gmap ptr FSM) r q :
  at_ptr p m h = Some (r, h') → q ≠ p → h' !! q = h !! q.
Proof.
  intros (f & _ & _ & ->)%at_ptr_Some Hne. by rewrite lookup_insert_ne.
Qed.

Lemma Builder_calls_frame b calls (h h' : gmap ptr FSM) q :
  Builder_calls b calls h = Some h' → q ≠ fsm b → h' !! q = h !! q.
Proof.
  revert h. induction calls as [|c rest IH]; intros h; simpl.
  - by intros [= ->].
  - destruct (Builder_call b c h) as [[r h1]|] eqn:Hcall; [|done].
    intros Hrest Hne. rewrite (IH h1 Hrest Hne).
    by apply (at_ptr_frame _ _ _ _ _ _ Hcall).
Qed.

(** X15. [NewBuilder] allocates a new object, with empty sets and no initial
    state, and leaves every existing object alone. Two builders made one
    after the other hold different objects; every sequence of mutator calls
    on the first runs to its end on the first's object and leaves all other
    objects, the second builder's among them, as they were. [Build] and
    [ProcessInput] through a pointer likewise touch that pointer's object
    only. *)
Theorem NewBuilder_separate (h : gmap ptr FSM) :
  let b1 := (NewBuilder h).1 in
  let h1 := (NewBuilder h).2 in
  let b2 := (NewBuilder h1).1 in
  let h2 := (NewBuilder h1).2 in
  ((fsm b1 ∉ dom h) ∧ fsm b2 ≠ fsm b1 ∧
   (∀ q, q ∈ dom h → h2 !! q = h !! q) ∧
   h2 !! fsm b1 = Some NewFSM ∧ h2 !! fsm b2 = Some NewFSM ∧
   (∀ calls, ∃ h3,
      Builder_calls b1 calls h2 = Some h3 ∧
      h3 !! fsm b1 = Some (run (CallBuilder <$> calls) NewFSM) ∧
      ∀ q, q ≠ fsm b1 → h3 !! q = h2 !! q) ∧
   (∀ o r h3 q, Builder_Build o b1 h2 = Some (r, h3) → q ≠ fsm b1 → h3 !! q = h2 !! q) ∧
   (∀ input r h3 q,
      FSM_ProcessInput (fsm b1) input h2 = Some (r, h3) → q ≠ fsm b1 →
      h3 !! q = h2 !! q)).
Proof.
  intros b1 h1 b2 h2.
  assert (fsm b1 ∉ dom h) as Hfresh1 by apply is_fresh.
  assert (fsm b2 ∉ dom h1) as Hfresh2 by apply is_fresh.
  assert (h1 = <[fsm b1 := NewFSM]> h) as Hh1 by done.
  assert (h2 = <[fsm b2 := NewFSM]> h1) as Hh2 by done.
  clearbody b1 h1 b2 h2. subst h1 h2.
  rewrite dom_insert_L in Hfresh2.
  assert (fsm b2 ≠ fsm b1) as Hne by set_solver.
  assert (<[fsm b2 := NewFSM]> (<[fsm b1 := NewFSM]> h) !! fsm b1 = Some NewFSM) as Hb1.
  { rewrite lookup_insert_ne by done. apply lookup_insert_eq. }
  repeat apply conj; try done.
  - intros q Hq. rewrite !lookup_insert_ne; [done|..]; intros <-; set_solver.
  - apply lookup_insert_eq.
  - intros calls.
    destruct (Builder_calls_Some b1 calls _ NewFSM Hb1) as (h3 & Hcalls & Hobj).
    exists h3. split; [done|]. split; [done|].
    intros q Hq. by apply (Builder_calls_frame b1 calls _ h3).
  - intros o r h3 q Hbuild. by apply (at_ptr_frame _ _ _ _ _ _ Hbuild).
  - intros input r h3 q Hproc. by apply (at_ptr_frame _ _ _ _ _ _ Hproc).
Qed.

(** ** The number of transitions of a built automaton *)

Lemma NoDup_list_prod {A B} (l : list A) (k : list B) :
  NoDup l → NoDup k → NoDup (list_prod l k).
Proof.
  intros Hl Hk. induction Hl as [|x l Hx Hl IH]; simpl; [constructor|].
  apply NoDup_app. split; [|split; [|done]].
  - by apply (NoDup_fmap_2 (pair x)).
  - intros [a b] Hin1 Hin2. apply list_elem_of_fmap in Hin1 as (y & [= -> ->] & _).
    apply list_elem_of_In, in_prod_iff in Hin2 as [Hin2 _].
    by apply list_elem_of_In in Hin2.
Qed.

Lemma keys_has (m : gmap string bool) key :
  (∀ k v, m !! k = Some v → v = true) →
  key ∈ (map_to_list m).*1 ↔ has m key = true.
Proof.
  intros Htrue. rewrite keys_elem, has_true. split.
  - intros [v Hv]. by rewrite (Htrue key v Hv) in Hv.
  - intros Hkey. by exists true.
Qed.

Lemma transitions_domain f :
  wf f → total f →
  ∀ state symbol,
    is_Some (transitions f !! mkKey state symbol) ↔
    has (states f) state = true ∧ has (alphabet f) symbol = true.
Proof.
  intros Hwf Ht state symbol. split.
  - intros [nextState Hk]. by destruct (wf_transitions f Hwf _ _ Hk) as (? & ? & _).
  - intros [Hs Ha]. apply Ht; by apply has_true_dom.
Qed.

Lemma transitions_count f :
  wf f → total f → size (transitions f) = size (states f) * size (alphabet f).
Proof.
  intros Hwf Ht.
  set (ks := (map_to_list (states f)).*1).
  set (ka := (map_to_list (alphabet f)).*1).
  set (kt := (map_to_list (transitions f)).*1).
  assert (kt ≡ₚ (λ p, mkKey p.1 p.2) <$> list_prod ks ka) as Hperm.
  { apply NoDup_Permutation.
    - apply NoDup_fst_map_to_list.
    - apply NoDup_fmap_2.
      + intros [s1 a1] [s2 a2] [= -> ->]. done.
      + apply NoDup_list_prod; apply NoDup_fst_map_to_list.
    - intros [state symbol]. unfold kt. rewrite keys_elem.
      rewrite (transitions_domain f Hwf Ht), list_elem_of_fmap. split.
      + intros [Hs Ha]. exists (state, symbol). split; [done|].
        apply list_elem_of_In, in_prod_iff. split; apply list_elem_of_In.
        * apply keys_has; [apply Hwf | done].
        * apply keys_has; [apply Hwf | done].
      + intros ([s a] & [= -> ->] & Hin).
        apply list_elem_of_In, in_prod_iff in Hin as [Hs Ha].
        apply list_elem_of_In, keys_has in Hs; [|apply Hwf].
        apply list_elem_of_In, keys_has in Ha; [|apply Hwf]. done. }
  apply Permutation_length in Hperm.
  rewrite length_fmap, length_prod in Hperm. unfold kt, ks, ka in Hperm.
  rewrite !length_fmap, !length_map_to_list in Hperm. exact Hperm.
Qed.

(** X16. The automaton that a successful [Build] returns has exactly one
    transition for each pair of a state and a symbol and no other: their
    number is the number of states times the number of symbols. *)
Theorem Build_transition_count calls o a :
  Build o (run calls NewFSM) = (a, None) →
  size (transitions a) = size (states a) * size (alphabet a).
Proof.
  intros (-> & Ht & _)%Build_success.
  pose proof (run_keeps_wf calls NewFSM NewFSM_wf) as Hwf.
  set (f := run calls NewFSM) in *.
  change (size (transitions f) = size (states f) * size (alphabet f)).
  by apply transitions_count.
Qed.

Lemma Build_transition_count_witness :
  let a := (Build canonical_order
              (run (CallBuilder <$> main_calls canonical_order) NewFSM)).1 in
  size (transitions a) = size (states a) * size (alphabet a).
Proof.
  intros a.
  refine (Build_transition_count (CallBuilder <$> main_calls canonical_order)
            canonical_order a _).
  vm_compute. reflexivity.
Defined.

(** ** The program main *)

(** X17. Whatever the iteration order of Go's maps, [main] prints the two
    lines "110 => S0 (mod 3 = 0)" and "1101 => S1 (mod 3 = 1)" and nothing
    else: none of its error branches is taken. *)
Theorem main_output o :
  main o = ["110 => S0 (mod 3 = 0)"; "1101 => S1 (mod 3 = 1)"].
Proof.
  unfold main. cbv zeta.
  set (f0 := AddSymbols ["0"; "1"] (AddStates ["S0"; "S1"; "S2"] NewFSM)).
  assert (SetInitialState "S0" f0 = ((SetInitialState "S0" f0).1, None)) as ->
    by (vm_compute; reflexivity).
  cbv beta iota. set (f1 := (SetInitialState "S0" f0).1).
  assert (AddFinalStates ["S0"; "S1"; "S2"] f1 =
          ((AddFinalStates ["S0"; "S1"; "S2"] f1).1, None)) as ->
    by (vm_compute; reflexivity).
  cbv beta iota. set (f2 := (AddFinalStates ["S0"; "S1"; "S2"] f1).1).
  rewrite main_transitions_order.
  assert (AddTransitions canonical_order main_transitions f2 = (main_fsm, None)) as ->
    by (vm_compute; reflexivity).
  cbv beta iota. rewrite main_fsm_Build. cbv beta iota.
  vm_compute. reflexivity.
Qed.

(** ** The symbols of an input *)

Lemma string_of_rune_length r :
  (1 ≤ String.length (string_of_rune r))%nat ∧
  (String.length (string_of_rune r) ≤ 4)%nat.
Proof. unfold string_of_rune. repeat case_match; simpl; lia. Qed.

Lemma runes_length_le n s :
  (String.length s ≤ n)%nat → (length (runes s) ≤ String.length s)%nat.
Proof.
  revert s. induction n as [|n IH]; intros s Hn.
  - destruct s; simpl in *; [done | lia].
  - destruct s as [|c0 s1]; [done|].
    assert (∀ t, (String.length t ≤ String.length s1)%nat →
                 (S (length (runes t)) ≤ String.length (String c0 s1))%nat) as Htail.
    { intros t Ht. simpl in *. specialize (IH t). lia. }
    simpl runes.
    repeat match goal with
    | |- context [if ?b then _ else _] => destruct b
    | |- context [match ?t with EmptyString => _ | String _ _ => _ end] =>
        destruct t
    end;
    cbn [length]; apply Htail; simpl; lia.
Qed.

(** X18. [ProcessString] splits its input into at most as many symbols as
    the input has bytes, and every symbol it passes to [step] is one to four
    bytes long. An empty symbol or a symbol of more than four bytes can be
    put into the alphabet, but no input ever matches it. *)
Theorem symbols_of_bounds input :
  (length (symbols_of input) ≤ String.length input)%nat ∧
  (∀ symbol, symbol ∈ symbols_of input →
     (1 ≤ String.length symbol)%nat ∧ (String.length symbol ≤ 4)%nat) ∧
  (∀ symbol, String.length symbol = 0 ∨ (4 < String.length symbol)%nat →
     symbol ∉ symbols_of input).
Proof.
  assert (∀ symbol, symbol ∈ symbols_of input →
            (1 ≤ String.length symbol)%nat ∧ (String.length symbol ≤ 4)%nat) as Hlen.
  { intros symbol (r & -> & _)%list_elem_of_fmap. apply string_of_rune_length. }
  split; [|split; [done|]].
  - unfold symbols_of. rewrite length_fmap. by apply (runes_length_le (String.length input)).
  - intros symbol Hbad Hin. apply Hlen in Hin. lia.
Qed.

(** * The automaton while the Builder is not used again *)

Lemma call_fsm_closed c s f :
  total f → targets_in_states f →
  has (states f) (initialState f) = true → has (states f) s = true →
  ∃ s' r, call_fsm c (set_currentState s f) = (set_currentState s' f, r) ∧
          has (states f) s' = true ∧
          ∀ err, r = Some err → kind err = UnknownSymbol.
Proof.
  intros Ht Hinv Hinit Hs. destruct c as [|symbol|input|input]; simpl.
  - by exists (initialState f), None.
  - destruct (has (alphabet f) symbol) eqn:Ha.
    + destruct (step_defined symbol s f Ht Hinv Hs Ha) as (nextState & -> & Hnext).
      by exists nextState, None.
    + rewrite step_unknown by done.
      exists s, (Some (ErrSymbolNotInAlphabet symbol)).
      split; [done|]. split; [done|]. by intros err [= <-].
  - unfold ProcessString.
    destruct (ProcessString_loop_closed (symbols_of input) s f Ht Hinv Hs)
      as (s' & Heq & Hs' & Herr).
    destruct (ProcessString_loop _ _) as [f' r]. simpl in *. subst f'.
    by exists s', r.
  - unfold ProcessInput, ProcessString.
    change (Reset (set_currentState s f)) with (set_currentState (initialState f) f).
    destruct (ProcessString_loop_closed (symbols_of input) _ f Ht Hinv Hinit)
      as (s' & Heq & Hs' & Herr).
    destruct (ProcessString_loop _ _) as [f' [err|]]; simpl in *; subst f'.
    + by exists s', (Some err).
    + by exists s', None.
Qed.

Lemma FSM_calls_closed fcalls p s f (h : gmap ptr FSM) :
  total f → targets_in_states f →
  has (states f) (initialState f) = true → has (states f) s = true →
  h !! p = Some (set_currentState s f) →
  ∃ errs h2 s',
    FSM_calls p fcalls h = Some (errs, h2) ∧
    h2 !! p = Some (set_currentState s' f) ∧
    has (states f) s' = true ∧
    ∀ err, Some err ∈ errs → kind err = UnknownSymbol.
Proof.
  intros Ht Hinv Hinit. revert s h.
  induction fcalls as [|c rest IH]; intros s h Hs Hp; simpl.
  - exists [], h, s. split; [done|]. split; [done|]. split; [done|].
    intros err Hin. by apply elem_of_nil in Hin.
  - destruct (call_fsm_closed c s f Ht Hinv Hinit Hs) as (s1 & r & Hcall & Hs1 & Hr).
    unfold FSM_call, at_ptr. rewrite Hp, Hcall.
    destruct (IH s1 (<[p := set_currentState s1 f]> h) Hs1)
      as (errs & h2 & s' & -> & Hp2 & Hs' & Herrs); [apply lookup_insert_eq|].
    exists (r :: errs), h2, s'. split; [done|]. split; [done|]. split; [done|].
    intros err [Heq|Hin]%elem_of_cons; [by apply Hr | by apply Herrs].
Qed.

(** C2 (as amended). Let a successful [Build], on a builder made by
    [NewBuilder] and used through the methods of the package, return the
    automaton [p]. As long as the Builder is not used again, that is, after
    any sequence of calls of [Reset], [step], [ProcessString] and
    [ProcessInput] on the automaton: every call of the sequence ran, and
    returned no error or UnknownSymbol, never TransitionUndefined; the
    cursor is on a member of the state set; and for every state [s] of the
    state set and every symbol of the alphabet, [step] from [s] returns no
    error and moves the cursor to a member of the state set. *)
Theorem step_total_while_Builder_unused calls o b (h h1 : gmap ptr FSM) p fcalls :
  h !! fsm b = Some (run calls NewFSM) →
  Builder_Build o b h = Some ((Some p, None), h1) →
  ∃ errs h2 a',
    FSM_calls p fcalls h1 = Some (errs, h2) ∧
    h2 !! p = Some a' ∧
    (∀ err, Some err ∈ errs →
       kind err = UnknownSymbol ∧ kind err ≠ TransitionUndefined) ∧
    has (states a') (currentState a') = true ∧
    (∀ s symbol,
       has (states a') s = true → has (alphabet a') symbol = true →
       ∃ nextState,
         step symbol (set_currentState s a') = (set_currentState nextState a', None) ∧
         has (states a') nextState = true) ∧
    (∀ s symbol g err,
       has (states a') s = true →
       step symbol (set_currentState s a') = (g, Some err) →
       err = ErrSymbolNotInAlphabet symbol).
Proof.
  intros Hobj (-> & f & a & Hf & Hb & ->)%Builder_Build_Some.
  rewrite Hobj in Hf. injection Hf as <-.
  apply Build_success in Hb as (-> & Ht & Hinit).
  pose proof (run_targets calls NewFSM NewFSM_targets) as Hinv.
  set (f := run calls NewFSM) in *.
  destruct (FSM_calls_closed fcalls (fsm b) (initialState f) f
              (<[fsm b := set_currentState (initialState f) f]> h)
              Ht Hinv Hinit Hinit) as (errs & h2 & s' & Hcalls & Hp & Hs' & Herrs);
    [apply lookup_insert_eq|].
  exists errs, h2, (set_currentState s' f).
  split; [done|]. split; [done|]. split; [|split; [done|split]].
  - intros err Hin. rewrite (Herrs err Hin). by split.
  - intros s symbol Hs Ha. simpl in Hs, Ha. rewrite !set_currentState_twice.
    destruct (step_defined symbol s f Ht Hinv Hs Ha) as (nextState & -> & Hnext).
    by exists nextState.
  - intros s symbol g err Hs Hstep. simpl in Hs.
    rewrite set_currentState_twice in Hstep.
    by apply (step_error_kind symbol s f g err Ht Hs).
Qed.

(** The automaton of [main], driven through its own methods: an input with
    an unknown symbol, a step, a reset. *)
Lemma step_total_while_Builder_unused_witness :
  let b := (NewBuilder ∅).1 in
  let h := default ∅ (Builder_calls b (main_calls canonical_order) (NewBuilder ∅).2) in
  let h1 := <[fsm b := set_currentState "S0" main_fsm]> h in
  ∃ errs h2 a',
    FSM_calls (fsm b) [DoProcessInput "1x1"; DoStep "1"; DoProcessString "10"; DoReset] h1 =
      Some (errs, h2) ∧
    h2 !! fsm b = Some a' ∧
    (∀ err, Some err ∈ errs →
       kind err = UnknownSymbol ∧ kind err ≠ TransitionUndefined) ∧
    has (states a') (currentState a') = true.
Proof.
  intros b h h1.
  destruct (step_total_while_Builder_unused
              (CallBuilder <$> main_calls canonical_order) canonical_order b h h1 (fsm b)
              [DoProcessInput "1x1"; DoStep "1"; DoProcessString "10"; DoReset])
    as (errs & h2 & a' & H1 & H2 & H3 & H4 & _).
  - vm_compute. reflexivity.
  - vm_compute. reflexivity.
  - exists errs, h2, a'.
    split; [exact H1|]. split; [exact H2|]. split; [exact H3 | exact H4].
Defined.

(** After main's [Build], [AddSymbols("2")] on the builder puts the symbol 2
    into the alphabet of the automaton that [Build] returned; [step] on 2
    from S0 then finds no transition. *)
Lemma step_total_while_Builder_unused_counterexample :
  ¬ (∀ calls o b (h h1 h2 : gmap ptr FSM) p bcalls a' s symbol,
       h !! fsm b = Some (run calls NewFSM) →
       Builder_Build o b h = Some ((Some p, None), h1) →
       Builder_calls b bcalls h1 = Some h2 →
       h2 !! p = Some a' →
       has (states a') s = true → has (alphabet a') symbol = true →
       ∃ nextState,
         step symbol (set_currentState s a') = (set_currentState nextState a', None) ∧
         has (states a') nextState = true).
Proof.
  intros Hclaim.
  pose (b := (NewBuilder ∅).1).
  pose (h := default ∅ (Builder_calls b (main_calls canonical_order) (NewBuilder ∅).2)).
  pose (a := set_currentState "S0" main_fsm).
  pose (a' := AddSymbols ["2"] a).
  destruct (Hclaim (CallBuilder <$> main_calls canonical_order) canonical_order b h
              (<[fsm b := a]> h) (<[fsm b := a']> h) (fsm b)
              [CallAddSymbols ["2"]] a' "S0" "2")
    as (nextState & Hstep & _); try (vm_compute; reflexivity).
  assert ((step "2" (set_currentState "S0" a')).2 = Some (ErrNoTransition "S0" "2"))
    as Hreal by (vm_compute; reflexivity).
  apply (f_equal snd) in Hstep. cbn [snd] in Hstep.
  exact (eq_ind (Some (ErrNoTransition "S0" "2"))
           (λ r, match r with Some _ => True | None => False end) I None
           (eq_trans (eq_sym Hreal) Hstep)).
Qed.

(** The same through [ProcessInput]: it returns the error of the
    TransitionUndefined branch. *)
Example AddSymbols_after_Build :
  (let '(b, h) := NewBuilder ∅ in
   (h ← Builder_calls b (main_calls canonical_order) h;
    '(r, h) ← Builder_Build canonical_order b h;
    h ← Builder_calls b [CallAddSymbols ["2"]] h;
    '(r', _) ← FSM_ProcessInput (fsm b) "2" h;
    Some (r, r')) =
   Some ((Some (fsm b), None), (false, Some (ErrNoTransition "S0" "2")))) ∧
  Error (ErrNoTransition "S0" "2") = "no transition defined for δ(S0, 2)".
Proof. split; vm_compute; reflexivity. Qed.

(** X11. Let a successful [Build], on a builder made by [NewBuilder] and
    used through the methods of the package, return the automaton [p], and
    let [a] be the object then. As long as the Builder is not used again,
    that is, after any sequence of calls of [Reset], [step], [ProcessString]
    and [ProcessInput] on the automaton, [ProcessInput] has two outcomes
    only. If every symbol of the input is in the alphabet it returns no
    error, ends in a declared state and reports whether that state is final.
    Otherwise it returns [false] and "symbol X not in alphabet" for the first
    symbol X that is not in the alphabet, with the cursor on the state
    reached from the initial state by the symbols before X. *)
Theorem ProcessInput_outcome_while_Builder_unused
    calls o b (h h1 : gmap ptr FSM) p a fcalls input :
  h !! fsm b = Some (run calls NewFSM) →
  Builder_Build o b h = Some ((Some p, None), h1) →
  h1 !! p = Some a →
  ∃ errs h2 s0,
    FSM_calls p fcalls h1 = Some (errs, h2) ∧
    h2 !! p = Some (set_currentState s0 a) ∧
    (Forall (λ symbol, has (alphabet a) symbol = true) (symbols_of input) →
       ∃ s', FSM_ProcessInput p input h2 =
               Some ((has (finalStates a) s', None), <[p := set_currentState s' a]> h2) ∧
             has (states a) s' = true) ∧
    (∀ pre bad post,
       symbols_of input = (pre ++ bad :: post)%list →
       Forall (λ symbol, has (alphabet a) symbol = true) pre →
       has (alphabet a) bad = false →
       ∃ s', FSM_ProcessInput p input h2 =
               Some ((false, Some (ErrSymbolNotInAlphabet bad)),
                     <[p := set_currentState s' a]> h2) ∧
             ProcessString_loop pre a = (set_currentState s' a, None) ∧
             has (states a) s' = true ∧
             Error (ErrSymbolNotInAlphabet bad) =
               "symbol " +:+ bad +:+ " not in alphabet").
Proof.
  intros Hobj (-> & f0 & a0 & Hf & Hb & ->)%Builder_Build_Some Ha.
  rewrite lookup_insert_eq in Ha. injection Ha as ->.
  rewrite Hobj in Hf. injection Hf as <-.
  pose proof (ProcessInput_outcome calls o a input Hb) as [Hknown Hunknown].
  apply Build_success in Hb as (Ha & Ht & Hinit).
  pose proof (run_targets calls NewFSM NewFSM_targets) as Hinv.
  set (f := run calls NewFSM) in *.
  destruct (FSM_calls_closed fcalls (fsm b) (initialState f) f (<[fsm b := a]> h)
              Ht Hinv Hinit Hinit) as (errs & h2 & s0 & Hcalls & Hp & _ & _);
    [rewrite Ha; apply lookup_insert_eq|].
  exists errs, h2, s0. split; [done|].
  assert (set_currentState s0 f = set_currentState s0 a) as Hsame by (by rewrite Ha).
  rewrite Hsame in Hp. split; [done|].
  unfold FSM_ProcessInput, at_ptr. rewrite Hp.
  rewrite (ProcessInput_forgets_cursor input s0 a). split.
  - intros Hall. destruct (Hknown Hall) as (s' & -> & Hs'). by exists s'.
  - intros pre bad post Hsplit Hpre Hbad.
    destruct (Hunknown pre bad post Hsplit Hpre Hbad) as (s' & -> & Hloop & Hs' & Hmsg).
    by exists s'.
Qed.

(** The automaton of [main] after a step on 1, on the input 1x0. *)
Lemma ProcessInput_outcome_while_Builder_unused_witness :
  let b := (NewBuilder ∅).1 in
  let h := default ∅ (Builder_calls b (main_calls canonical_order) (NewBuilder ∅).2) in
  let a := set_currentState "S0" main_fsm in
  let h1 := <[fsm b := a]> h in
  ∃ errs h2 s0 s',
    FSM_calls (fsm b) [DoStep "1"] h1 = Some (errs, h2) ∧
    h2 !! fsm b = Some (set_currentState s0 a) ∧
    FSM_ProcessInput (fsm b) "1x0" h2 =
      Some ((false, Some (ErrSymbolNotInAlphabet "x")),
            <[fsm b := set_currentState s' a]> h2).
Proof.
  intros b h a h1.
  destruct (ProcessInput_outcome_while_Builder_unused
              (CallBuilder <$> main_calls canonical_order) canonical_order b h h1 (fsm b) a
              [DoStep "1"] "1x0")
    as (errs & h2 & s0 & Hcalls & Hp & _ & Hunknown).
  - vm_compute. reflexivity.
  - vm_compute. reflexivity.
  - vm_compute. reflexivity.
  - destruct (Hunknown ["1"] "x" ["0"]) as (s' & Hres & _).
    + vm_compute. reflexivity.
    + repeat constructor.
    + vm_compute. reflexivity.
    + exists errs, h2, s0, s'. split; [exact Hcalls|]. split; [exact Hp | exact Hres].
Defined.
